(** * Per-viewer WebRTC session ([connection/peer.go]): a shallow embedding

    The Go methods of [RemotePeer] are written as computations in a small
    state monad.  The state carries the session object, the heap of shared
    [PeerData] objects reached through the [data] pointer, and the history
    of the calls the session made to its collaborators (signal channel,
    negotiation engine, deregistration channel, inbound feed, logger).
    What the collaborators answer is read from an environment of oracles,
    so every statement holds for every behaviour of the libraries. *)

From Stdlib Require Import ZArith String List Bool Lia.
From stdpp Require Import base numbers functions.
Import ListNotations.
Local Open Scope string_scope.

Module connection.

(** ** Data *)

(** Go's [error], kept by its message. *)
Definition error := string.

(** [json.RawMessage]: the raw bytes of a payload. *)
Definition RawMessage := string.

(** An RTP packet as it travels on the feed, [[]byte]. *)
Definition bytes := list Byte.byte.

(** Address of a [PeerData] object; [*PeerData] in the source. *)
Abbreviation loc := nat.

(** Handles of collaborator objects. *)
Definition SignalHandle := nat.
Definition PeerConnection := nat.
Definition TrackLocalStaticRTP := nat.
Definition RTPSender := nat.
Definition Chan := nat.
Definition ICECandidate := string.

Inductive SDPType := SDPTypeOffer | SDPTypePranswer | SDPTypeAnswer | SDPTypeRollback.

Record SessionDescription := mkSessionDescription {
  Type_ : SDPType;
  SDP : string
}.

Record ICECandidateInit := mkICECandidateInit {
  Candidate : string;
  SDPMid : option string;
  SDPMLineIndex : option Z;
  UsernameFragment : option string
}.

Inductive PeerConnectionState :=
| PeerConnectionStateNew
| PeerConnectionStateConnecting
| PeerConnectionStateConnected
| PeerConnectionStateDisconnected
| PeerConnectionStateFailed
| PeerConnectionStateClosed.

(** The fields of [PeerData] that [peer.go] reads or writes.  Its
    declaration lives in another file of the package; [api] and [config]
    are only handed to the engine and [mtu] only sizes a buffer. *)
Record PeerData := mkPeerData {
  api : nat;
  config : nat;
  trackID : string;
  streamID : string;
  mtu : Z;
  id : string;
  running : bool;
  closed : bool
}.

(** How the inbound channel ends once its buffered packets are consumed:
    the sender closed it, or nothing more ever arrives and a receive
    blocks. *)
Inductive Ending := ChanClosed | ChanSilent.

(** [<-chan []byte], given by what it will still deliver. *)
Record Feed := mkFeed {
  packets : list bytes;
  ending : Ending
}.

Record RemotePeer := mkRemotePeer {
  signal : SignalHandle;
  peer : option PeerConnection;
  track : option TrackLocalStaticRTP;
  stream : Feed;
  close : Chan;
  data : loc
}.

(** The value passed as payload to [SendMessage]. *)
Inductive Payload :=
| PString (s : string)
| PCandidate (c : ICECandidateInit).

Inductive Handler :=
| H_onSignalOffer | H_onSignalReject | H_onSignalClose
| H_onSignalAnswer | H_onSignalCandidate.

Inductive Field := F_running | F_closed.

(** [webrtc.MimeTypeH264]. *)
Definition MimeTypeH264 : string := "video/H264".

(** One entry per call that leaves the session, in program order.  Calls
    on [peer.peer] and [peer.track] record the receiver, which may be nil.
    A [Log] holds the line without its terminator.  [ChanSend] is the send
    [peer.close <- v], taken to complete: the fan-out receives.  [Store] is
    a write to a field of the shared [PeerData].  [Call_Close] marks
    control entering [Close]; it is a label for the statements below to
    name the reason passed, not an effect. *)
Inductive Event :=
| Log (line : string)
| NewPeerConnection (api_ config_ : nat)
| SetEvent (name : string) (h : Handler)
| OnICECandidate
| OnConnectionStateChange
| SendMessage (name : string) (payload : Payload)
| SignalClose
| GoListen
| PeerClose (recv : option PeerConnection)
| SetRemoteDescription (recv : option PeerConnection) (sd : SessionDescription) (res : option error)
| AddICECandidate (recv : option PeerConnection) (c : ICECandidateInit)
| NewTrackLocalStaticRTP (mime track_id stream_id : string)
| AddTrack (recv : option PeerConnection) (t : TrackLocalStaticRTP)
| GoDrain (sender : RTPSender) (mtu_ : Z)
| CreateOffer (recv : option PeerConnection)
| SetLocalDescription (recv : option PeerConnection) (sd : SessionDescription)
| ChanSend (ch : Chan) (v : string)
| Recv (res : option bytes)
| TrackWrite (recv : option TrackLocalStaticRTP) (p : bytes) (res : option error)
| GoRun
| Store (l : loc) (f : Field) (v : bool)
| Call_Close (reason : string).

(** The session, the heap of [PeerData] objects and the history, newest
    event first. *)
Record State := mkState {
  self : RemotePeer;
  heap : loc -> PeerData;
  trace : list Event
}.

(** What the libraries answer.  An answer may depend on everything that
    happened before, so stateful collaborators are covered. *)
Record Env := mkEnv {
  api_NewPeerConnection : nat -> nat -> PeerConnection + error;
  json_Unmarshal_string : RawMessage -> string + error;
  json_Unmarshal_candidate : RawMessage -> ICECandidateInit + error;
  candidate_ToJSON : ICECandidate -> ICECandidateInit;
  signal_SendMessage : list Event -> string -> Payload -> option error;
  pc_SetRemoteDescription : list Event -> SessionDescription -> option error;
  pc_AddICECandidate : list Event -> ICECandidateInit -> option error;
  webrtc_NewTrackLocalStaticRTP :
    list Event -> string -> string -> string -> TrackLocalStaticRTP + error;
  pc_AddTrack : list Event -> TrackLocalStaticRTP -> RTPSender + error;
  pc_CreateOffer : list Event -> SessionDescription + error;
  pc_SetLocalDescription : list Event -> SessionDescription -> option error;
  track_Write : list Event -> bytes -> option error
}.

(** ** The monad *)

(** A call returns, spins for ever on a condition nobody changes,
    blocks for ever on a channel, or panics and unwinds its goroutine. *)
Inductive Outcome (A : Type) :=
| Ret (a : A)
| Spin
| Block
| Panic.
Arguments Ret {A} a.
Arguments Spin {A}.
Arguments Block {A}.
Arguments Panic {A}.

Definition M (A : Type) : Type := State -> Outcome A * State.

Definition ret {A} (a : A) : M A := fun s => (Ret a, s).

Definition bind {A B} (m : M A) (k : A -> M B) : M B :=
  fun s =>
    match m s with
    | (Ret a, s') => k a s'
    | (Spin, s') => (Spin, s')
    | (Block, s') => (Block, s')
    | (Panic, s') => (Panic, s')
    end.

Declare Scope go_scope.
Delimit Scope go_scope with go.
Notation "x <- m ;; k" := (bind m (fun x => k))
  (at level 100, m at next level, right associativity) : go_scope.
Notation "m ;; k" := (bind m (fun _ => k)) : go_scope.
Local Open Scope go_scope.

Definition get : M State := fun s => (Ret s, s).
Definition spin {A} : M A := fun s => (Spin, s).
Definition block {A} : M A := fun s => (Block, s).
Definition panic {A} : M A := fun s => (Panic, s).

Definition emit (e : Event) : M unit :=
  fun s => (Ret tt, mkState (self s) (heap s) (e :: trace s)).

Definition set_closed (d : PeerData) (v : bool) : PeerData :=
  mkPeerData (api d) (config d) (trackID d) (streamID d) (mtu d) (id d) (running d) v.

Definition set_running (d : PeerData) (v : bool) : PeerData :=
  mkPeerData (api d) (config d) (trackID d) (streamID d) (mtu d) (id d) v (closed d).

Definition set_field (f : Field) : PeerData -> bool -> PeerData :=
  match f with F_running => set_running | F_closed => set_closed end.

(** [peer.data.f = v]: a write through the shared pointer. *)
Definition store (f : Field) (v : bool) : M unit :=
  fun s =>
    let l := data (self s) in
    (Ret tt, mkState (self s) (<[l := set_field f (heap s l) v]> (heap s))
                     (Store l f v :: trace s)).

(** [peer.data], read through the pointer. *)
Definition load : M PeerData := fun s => (Ret (heap s (data (self s))), s).

Definition set_track (t : TrackLocalStaticRTP) : M unit :=
  fun s =>
    let p := self s in
    (Ret tt, mkState (mkRemotePeer (signal p) (peer p) (Some t) (stream p) (close p) (data p))
                     (heap s) (trace s)).

Definition set_stream (f : Feed) : M unit :=
  fun s =>
    let p := self s in
    (Ret tt, mkState (mkRemotePeer (signal p) (peer p) (track p) f (close p) (data p))
                     (heap s) (trace s)).

Section Methods.

Variable env : Env.

(** *** Calls to the collaborators *)

(** [peer.signal.SendMessage(name, payload)], with the error it returns. *)
Definition sendMessage (name : string) (payload : Payload) : M (option error) :=
  fun s => (Ret (signal_SendMessage env (trace s) name payload),
            mkState (self s) (heap s) (SendMessage name payload :: trace s)).

Definition setRemoteDescription (sd : SessionDescription) : M (option error) :=
  fun s =>
    let r := pc_SetRemoteDescription env (trace s) sd in
    (Ret r, mkState (self s) (heap s)
                    (SetRemoteDescription (peer (self s)) sd r :: trace s)).

Definition addICECandidate (c : ICECandidateInit) : M (option error) :=
  fun s => (Ret (pc_AddICECandidate env (trace s) c),
            mkState (self s) (heap s) (AddICECandidate (peer (self s)) c :: trace s)).

Definition newTrackLocalStaticRTP (mime tid sid : string) : M (TrackLocalStaticRTP + error) :=
  fun s => (Ret (webrtc_NewTrackLocalStaticRTP env (trace s) mime tid sid),
            mkState (self s) (heap s) (NewTrackLocalStaticRTP mime tid sid :: trace s)).

Definition pcAddTrack (t : TrackLocalStaticRTP) : M (RTPSender + error) :=
  fun s => (Ret (pc_AddTrack env (trace s) t),
            mkState (self s) (heap s) (AddTrack (peer (self s)) t :: trace s)).

Definition createOffer : M (SessionDescription + error) :=
  fun s => (Ret (pc_CreateOffer env (trace s)),
            mkState (self s) (heap s) (CreateOffer (peer (self s)) :: trace s)).

Definition setLocalDescription (sd : SessionDescription) : M (option error) :=
  fun s => (Ret (pc_SetLocalDescription env (trace s) sd),
            mkState (self s) (heap s) (SetLocalDescription (peer (self s)) sd :: trace s)).

(** [peer.track.Write(data)]: the [track] field is read at the call. *)
Definition trackWrite (p : bytes) : M (option error) :=
  fun s =>
    let r := track_Write env (trace s) p in
    (Ret r, mkState (self s) (heap s) (TrackWrite (track (self s)) p r :: trace s)).

(** *** [Close] *)

(** The first line is the [Call_Close] label; the body of the method
    follows. *)
Definition Close (reason : string) : M unit :=
  emit (Call_Close reason);;
  d <- load;;
  if closed d then ret tt
  else
    emit (Log ("Closing peer connection, reason: " ++ reason));;
    _ <- sendMessage "close" (PString reason);;
    emit SignalClose;;
    s <- get;;
    emit (PeerClose (peer (self s)));;
    d' <- load;;
    emit (ChanSend (close (self s)) (id d'));;
    store F_closed true.

(** [Close] as it runs in the error branch of the constructor, the one
    place where [peer.peer] is nil: lines 191 to 197 as above, then
    [peer.peer.Close()] on the nil [*webrtc.PeerConnection], which
    dereferences its receiver and panics.  Nothing after the call runs:
    the id is not pushed and [closed] is not set. *)
Definition Close_on_nil (reason : string) : M unit :=
  emit (Call_Close reason);;
  d <- load;;
  if closed d then ret tt
  else
    emit (Log ("Closing peer connection, reason: " ++ reason));;
    _ <- sendMessage "close" (PString reason);;
    emit SignalClose;;
    emit (PeerClose None);;
    panic.

(** *** Signal handlers *)

Definition onSignalOffer (msg : RawMessage) : M unit :=
  _ <- sendMessage "reject" (PString "unexpected offer");;
  Close "misbehaving host".

Definition onSignalReject (msg : RawMessage) : M unit :=
  emit (Log ("Peer rejected signal with message " ++ msg)).

Definition onSignalClose (msg : RawMessage) : M unit :=
  emit (Log ("Remote peer requested close with message: " ++ msg));;
  Close "ok".

Definition onSignalAnswer (msg : RawMessage) : M unit :=
  match json_Unmarshal_string env msg with
  | inr err =>
      emit (Log ("RemotePeer: onAnswer: Unmarshal: " ++ err));;
      _ <- sendMessage "reject" (PString "invalid answer");;
      Close "failed to parse answer"
  | inl ans =>
      r <- setRemoteDescription (mkSessionDescription SDPTypeAnswer ans);;
      match r with
      | Some err =>
          emit (Log ("RemotePeer: onAnswer: SetRemoteDescription: " ++ err));;
          Close "failed to add answer"
      | None => ret tt
      end
  end.

Definition onSignalCandidate (msg : RawMessage) : M unit :=
  match json_Unmarshal_candidate env msg with
  | inr err =>
      emit (Log ("RemotePeer: onCandidate: Unmarshal: " ++ err));;
      _ <- sendMessage "reject" (PString "invalid candidate");;
      Close "failed to parse candidate"
  | inl candidate =>
      r <- addICECandidate candidate;;
      match r with
      | Some err =>
          emit (Log ("RemotePeer: onCandidate: AddICECandidate: " ++ err));;
          Close "failed to add candidate"
      | None => ret tt
      end
  end.

(** *** Engine callbacks *)

Definition onICECandidate (candidate : option ICECandidate) : M unit :=
  match candidate with
  | None => ret tt
  | Some c =>
      r <- sendMessage "candidate" (PCandidate (candidate_ToJSON env c));;
      match r with
      | Some _ => Close "failed to send candidate"
      | None => ret tt
      end
  end.

(** [go peer.run()] is recorded as [GoRun]; the loop itself is [run]. *)
Definition onConnectionStateChange (state : PeerConnectionState) : M unit :=
  match state with
  | PeerConnectionStateConnected =>
      d <- load;;
      if negb (running d) then emit GoRun else ret tt
  | _ => ret tt
  end.

(** *** The forwarding loop *)

(** The [for] loop of [run], by recursion on what the channel still
    holds.  Each round receives, and on a packet writes it to
    [peer.track]. *)
Fixpoint forward (pkts : list bytes) (e : Ending) : M unit :=
  match pkts with
  | [] =>
      match e with
      | ChanClosed =>
          emit (Recv None);;
          emit (Log "RemotePeer: run: channel closed");;
          Close "failed to read stream"
      | ChanSilent => block
      end
  | p :: rest =>
      set_stream (mkFeed rest e);;
      emit (Recv (Some p));;
      w <- trackWrite p;;
      match w with
      | Some err =>
          emit (Log ("RemotePeer: run: Write: " ++ err));;
          Close "failed to write track"
      | None => forward rest e
      end
  end.

(** [for peer.track == nil {}]: nothing in the loop body changes the
    field, so on a nil track the wait never ends. *)
Definition wait_track : M unit :=
  s <- get;;
  match track (self s) with
  | None => spin
  | Some _ => ret tt
  end.

(** The deferred [running = false] runs when the loop returns, and only
    then. *)
Definition run : M unit :=
  store F_running true;;
  wait_track;;
  s <- get;;
  forward (packets (stream (self s))) (ending (stream (self s)));;
  store F_running false.

(** *** Construction *)

Definition addTrack : M unit :=
  d <- load;;
  r <- newTrackLocalStaticRTP MimeTypeH264 (trackID d) (streamID d);;
  match r with
  | inr err =>
      emit (Log ("RemotePeer: addTrack: NewTrackLocalStaticRTP: " ++ err));;
      Close "failed to create track"
  | inl t =>
      set_track t;;
      r' <- pcAddTrack t;;
      match r' with
      | inr err =>
          emit (Log ("RemotePeer: addTrack: AddTrack: " ++ err));;
          Close "failed to add track"
      | inl rtpSender =>
          d' <- load;;
          emit (GoDrain rtpSender (mtu d'))
      end
  end.

Definition beginHandshake : M unit :=
  emit GoListen;;
  r <- createOffer;;
  match r with
  | inr err =>
      emit (Log ("RemotePeer: beginHandshake: CreateOffer: " ++ err));;
      Close "failed to create offer"
  | inl offer =>
      r1 <- setLocalDescription offer;;
      match r1 with
      | Some err =>
          emit (Log ("RemotePeer: beginHandshake: SetLocalDescription: " ++ err));;
          Close "failed to add offer"
      | None =>
          r2 <- sendMessage "offer" (PString (SDP offer));;
          match r2 with
          | Some err =>
              emit (Log ("RemotePeer: beginHandshake: SendMessage: " ++ err));;
              Close "failed to send offer"
          | None => ret tt
          end
      end
  end.

(** [newRemotePeer]: the session starts with an empty history on the heap
    [h]; the result is the error returned, and the returned pointer is nil
    exactly when there is one.  When the engine gives no connection the
    [Close] of line 33 runs on a nil connection, [Close_on_nil]. *)
Definition newRemotePeer (sig : SignalHandle) (stream_ : Feed) (close_ : Chan)
    (data_ : loc) (h : loc -> PeerData) : Outcome (option error) * State :=
  let d := h data_ in
  let r := api_NewPeerConnection env (api d) (config d) in
  let remotePeer :=
    mkRemotePeer sig (match r with inl p => Some p | inr _ => None end)
                 None stream_ close_ data_ in
  let s0 := mkState remotePeer h [NewPeerConnection (api d) (config d); Log "New Peer"] in
  match r with
  | inr err => (Close_on_nil "failed to create peer connection";; ret (Some err)) s0
  | inl _ =>
      (emit (SetEvent "offer" H_onSignalOffer);;
       emit (SetEvent "reject" H_onSignalReject);;
       emit (SetEvent "close" H_onSignalClose);;
       emit (SetEvent "answer" H_onSignalAnswer);;
       emit (SetEvent "candidate" H_onSignalCandidate);;
       emit OnICECandidate;;
       emit OnConnectionStateChange;;
       addTrack;;
       beginHandshake;;
       ret None) s0
  end.

(** *** Executions *)

(** Everything that can run on a constructed session: the handlers the
    signal channel dispatches to, the engine's callbacks, the forwarding
    goroutine and the methods themselves. *)
Inductive Op :=
| Op_onSignalOffer (msg : RawMessage)
| Op_onSignalReject (msg : RawMessage)
| Op_onSignalClose (msg : RawMessage)
| Op_onSignalAnswer (msg : RawMessage)
| Op_onSignalCandidate (msg : RawMessage)
| Op_onICECandidate (c : option ICECandidate)
| Op_onConnectionStateChange (st : PeerConnectionState)
| Op_run
| Op_addTrack
| Op_beginHandshake
| Op_Close (reason : string).

Definition exec (o : Op) : M unit :=
  match o with
  | Op_onSignalOffer msg => onSignalOffer msg
  | Op_onSignalReject msg => onSignalReject msg
  | Op_onSignalClose msg => onSignalClose msg
  | Op_onSignalAnswer msg => onSignalAnswer msg
  | Op_onSignalCandidate msg => onSignalCandidate msg
  | Op_onICECandidate c => onICECandidate c
  | Op_onConnectionStateChange st => onConnectionStateChange st
  | Op_run => run
  | Op_addTrack => addTrack
  | Op_beginHandshake => beginHandshake
  | Op_Close reason => Close reason
  end.

(** Operations one after the other.  One that spins or blocks holds up
    only its own goroutine, so the next one still runs on the state it
    left. *)
Fixpoint execs (ops : list Op) (s : State) : State :=
  match ops with
  | [] => s
  | o :: rest => execs rest (snd (exec o s))
  end.

(** A whole life of a session: construction, then any operations. *)
Definition session (sig : SignalHandle) (stream_ : Feed) (close_ : Chan)
    (data_ : loc) (h : loc -> PeerData) (ops : list Op) : State :=
  execs ops (snd (newRemotePeer sig stream_ close_ data_ h)).

(** [Close] called once per reason, in order. *)
Fixpoint Close_all (reasons : list string) : M unit :=
  match reasons with
  | [] => ret tt
  | r :: rest => Close r;; Close_all rest
  end.

End Methods.

(** ** Reading states *)

Definition is_closed (s : State) : bool := closed (heap s (data (self s))).
Definition is_running (s : State) : bool := running (heap s (data (self s))).

(** The events added between [s] and a later state [s'], oldest first. *)
Definition emitted (s s' : State) : list Event :=
  rev (firstn (length (trace s') - length (trace s)) (trace s')).
Arguments emitted s s' : simpl never.

(** The effects among events: everything but the [Call_Close] marks. *)
Definition observable (e : Event) : bool :=
  match e with Call_Close _ => false | _ => true end.

Definition effects (s s' : State) : list Event := List.filter observable (emitted s s').

(** What a first [Close reason] does on [s], in order. *)
Definition teardown (s : State) (reason : string) : list Event :=
  [ Log ("Closing peer connection, reason: " ++ reason);
    SendMessage "close" (PString reason);
    SignalClose;
    PeerClose (peer (self s));
    ChanSend (close (self s)) (id (heap s (data (self s))));
    Store (data (self s)) F_closed true ].

Definition is_close_notification (e : Event) : bool :=
  match e with SendMessage name _ => String.eqb name "close" | _ => false end.

Definition is_release (e : Event) : bool :=
  match e with PeerClose _ => true | _ => false end.

Definition is_deregistration (ch : Chan) (i : string) (e : Event) : bool :=
  match e with ChanSend c v => Nat.eqb c ch && String.eqb v i | _ => false end.

Definition is_chan_send (e : Event) : bool :=
  match e with ChanSend _ _ => true | _ => false end.

Definition count (f : Event -> bool) (l : list Event) : nat := length (List.filter f l).

Definition is_reject (e : Event) : bool :=
  match e with SendMessage name _ => String.eqb name "reject" | _ => false end.

Definition is_failed_apply (e : Event) : bool :=
  match e with SetRemoteDescription _ _ (Some _) => true | _ => false end.

Definition is_apply (e : Event) : bool :=
  match e with SetRemoteDescription _ _ _ => true | _ => false end.





(** A write whose receiver, [peer.track], is nil. *)
Definition is_write_on_nil (e : Event) : bool :=
  match e with TrackWrite None _ _ => true | _ => false end.

Definition is_write (e : Event) : bool :=
  match e with TrackWrite _ _ _ => true | _ => false end.

(** The fields of [PeerData] that configure a session. *)
Definition params (d : PeerData) : nat * nat * string * string * Z * string :=
  (api d, config d, trackID d, streamID d, mtu d, id d).

(** [s'] differs from [s] at most in the flags of the session's own
    [PeerData] object: every other object is untouched and this one keeps
    its parameters. *)
Definition frame (s s' : State) : Prop :=
  data (self s') = data (self s) /\
  forall l : loc,
    if Nat.eqb l (data (self s))
    then params (heap s' l) = params (heap s l)
    else heap s' l = heap s l.

(** [s'] extends the history of [s] without a write to the track. *)
Definition quiet (s s' : State) : Prop :=
  exists new, trace s' = (new ++ trace s)%list /\ existsb is_write new = false.

(** Once the track is set it stays set, and from then on no write has a
    nil receiver. *)
Definition track_kept (s s' : State) : Prop :=
  track (self s) <> None ->
  track (self s') <> None /\
  exists new, trace s' = (new ++ trace s)%list /\ existsb is_write_on_nil new = false.


(** [m] takes every state to one related to it by [R]. *)
Definition preserves (R : State -> State -> Prop) {A} (m : M A) : Prop :=
  forall s, R s (snd (m s)).

(** No write so far had a nil receiver. *)
Definition writes_had_track (s : State) : Prop :=
  existsb is_write_on_nil (trace s) = false.

(** ** Vocabulary for whole lives of a session *)

Definition is_signal_close (e : Event) : bool :=
  match e with SignalClose => true | _ => false end.

Definition is_go_run (e : Event) : bool :=
  match e with GoRun => true | _ => false end.

(** Events that neither the body of [Close] nor the start of the loop
    produces: everything but the [close] message, the closing of the
    signal channel, the release of the connection, a send on a channel,
    a write to [closed], the entry mark and [go peer.run()]. *)
Definition benign (e : Event) : bool :=
  match e with
  | SendMessage name _ => negb (String.eqb name "close")
  | SignalClose | PeerClose _ | ChanSend _ _ | Call_Close _ | GoRun => false
  | Store _ F_closed _ => false
  | _ => true
  end.

(** The call came back. *)
Definition returned {A} (o : Outcome A) : bool :=
  match o with Ret _ => true | _ => false end.

(** Everything that can run on a session but the body of the loop. *)
Definition is_handler (o : Op) : bool :=
  match o with Op_run => false | _ => true end.

(** Each of the four teardown actions occurs [n] times in [l]. *)
Definition teardown_count (n : nat) (l : list Event) : Prop :=
  count is_close_notification l = n /\
  count is_signal_close l = n /\
  count is_release l = n /\
  count is_chan_send l = n.

(** From [s] to [s']: [closed] is never reset, and the teardown happened
    once if the session went from open to closed and not at all
    otherwise. *)
Definition once (s s' : State) : Prop :=
  data (self s') = data (self s) /\
  (is_closed s = true -> is_closed s' = true) /\
  exists new,
    trace s' = (new ++ trace s)%list /\
    teardown_count (if is_closed s then 0 else if is_closed s' then 1 else 0) new.

(** From [s] to [s']: [running] is as it was, and if it was set no loop
    was started. *)
Definition guard (s s' : State) : Prop :=
  data (self s') = data (self s) /\
  is_running s' = is_running s /\
  exists new,
    trace s' = (new ++ trace s)%list /\
    (is_running s = true -> existsb is_go_run new = false).

(** The handles the constructor stored are the ones still there. *)
Definition handles_kept (s s' : State) : Prop :=
  signal (self s') = signal (self s) /\
  peer (self s') = peer (self s) /\
  close (self s') = close (self s) /\
  data (self s') = data (self s).

(** The feed and the track are the ones still there. *)
Definition stream_kept (s s' : State) : Prop := stream (self s') = stream (self s).

Definition track_same (s s' : State) : Prop := track (self s') = track (self s).

(** The payloads handed to [Write], and the packets received, in a list
    of events. *)
Definition written (l : list Event) : list bytes :=
  flat_map (fun e => match e with TrackWrite _ p _ => [p] | _ => [] end) l.

Definition received (l : list Event) : list bytes :=
  flat_map (fun e => match e with Recv (Some p) => [p] | _ => [] end) l.

(** The state [newRemotePeer] starts from: the new object, on the heap it
    was given, after the first two lines of the constructor. *)
Definition born (env : Env) (sig : SignalHandle) (stream_ : Feed) (close_ : Chan)
    (data_ : loc) (h : loc -> PeerData) : State :=
  mkState
    (mkRemotePeer sig
       (match api_NewPeerConnection env (api (h data_)) (config (h data_)) with
        | inl p => Some p
        | inr _ => None
        end)
       None stream_ close_ data_)
    h
    [NewPeerConnection (api (h data_)) (config (h data_)); Log "New Peer"].

(** The registrations of the constructor, oldest first. *)
Definition registration : list Event :=
  [ SetEvent "offer" H_onSignalOffer;
    SetEvent "reject" H_onSignalReject;
    SetEvent "close" H_onSignalClose;
    SetEvent "answer" H_onSignalAnswer;
    SetEvent "candidate" H_onSignalCandidate;
    OnICECandidate;
    OnConnectionStateChange ].

(** ** Readings of the specification that the code does not meet *)

(** "[reject] and [close] events from the peer both drive the session to
    Closed." *)
Definition reject_and_close_both_close (env : Env) (s : State) (msg : RawMessage) : Prop :=
  is_closed (snd (onSignalReject msg s)) = true /\
  is_closed (snd (onSignalClose env msg s)) = true.

(** "On [answer], a parse failure or an apply failure both sends [reject]
    and closes; otherwise the session stays as open as it was." *)
Definition answer_failure_rejects_and_closes (env : Env) (s : State) (msg : RawMessage) : Prop :=
  let s' := snd (onSignalAnswer env msg s) in
  let evs := emitted s s' in
  match json_Unmarshal_string env msg with
  | inr _ => existsb is_reject evs = true /\ is_closed s' = true
  | inl _ =>
      if existsb is_failed_apply evs
      then existsb is_reject evs = true /\ is_closed s' = true
      else is_closed s' = is_closed s
  end.

(** "A payload that is not a valid SDP string never reaches
    [SetRemoteDescription] and always closes the session", where [valid]
    tells which strings are valid SDP. *)
Definition malformed_answer_never_reaches_engine (env : Env) (valid : string -> bool)
    (s : State) (msg : RawMessage) : Prop :=
  match json_Unmarshal_string env msg with
  | inl sdp => valid sdp
  | inr _ => false
  end = false ->
  existsb is_apply (emitted s (snd (onSignalAnswer env msg s))) = false /\
  is_closed (snd (onSignalAnswer env msg s)) = true.

(** "No operation of a session writes to any field of the shared
    [PeerData] object." *)
Definition shared_data_never_written (env : Env) (s : State) (o : Op) : Prop :=
  forall l : loc, heap (snd (exec env o s)) l = heap s l.

(** ** A test double for the libraries *)

Module Fake.

Definition dquote : Ascii.ascii := Ascii.ascii_of_nat 34.

(** After an opening quote: the text up to the closing quote, which must
    end the payload. *)
Fixpoint unquote_tail (s : string) : option string :=
  match s with
  | EmptyString => None
  | String c rest =>
      if Ascii.eqb c dquote then
        match rest with EmptyString => Some EmptyString | _ => None end
      else option_map (String c) (unquote_tail rest)
  end.

Definition Unmarshal_string (msg : RawMessage) : string + error :=
  match msg with
  | String c rest =>
      if Ascii.eqb c dquote then
        match unquote_tail rest with
        | Some body => inl body
        | None => inr "unexpected end of JSON input"
        end
      else inr "cannot unmarshal into Go value of type string"
  | EmptyString => inr "unexpected end of JSON input"
  end.

Definition Unmarshal_candidate (msg : RawMessage) : ICECandidateInit + error :=
  if String.prefix "{" msg then inl (mkICECandidateInit msg None None None)
  else inr "cannot unmarshal into Go value of type webrtc.ICECandidateInit".

Definition quoted (s : string) : RawMessage :=
  String dquote (s ++ String dquote EmptyString).

(** A session description starts with its version line. *)
Definition valid_sdp (sdp : string) : bool := String.prefix "v=0" sdp.

Definition signal_closed (hist : list Event) : bool :=
  existsb (fun e => match e with SignalClose => true | _ => false end) hist.

(** Sends fail once the channel was closed, descriptions must start with
    the SDP version line, and an empty packet cannot be written. *)
Definition env : Env := {|
  api_NewPeerConnection := fun _ _ => inl 11;
  json_Unmarshal_string := Unmarshal_string;
  json_Unmarshal_candidate := Unmarshal_candidate;
  candidate_ToJSON := fun c => mkICECandidateInit c None None None;
  signal_SendMessage := fun hist _ _ =>
    if signal_closed hist then Some "use of closed connection" else None;
  pc_SetRemoteDescription := fun _ sd =>
    if String.prefix "v=0" (SDP sd) then None else Some "invalid session description";
  pc_AddICECandidate := fun _ _ => None;
  webrtc_NewTrackLocalStaticRTP := fun _ _ _ _ => inl 12;
  pc_AddTrack := fun _ _ => inl 13;
  pc_CreateOffer := fun _ => inl (mkSessionDescription SDPTypeOffer "v=0 offer");
  pc_SetLocalDescription := fun _ _ => None;
  track_Write := fun _ p => match p with [] => Some "short packet" | _ => None end
|}.

Definition data0 : PeerData := mkPeerData 1 2 "video" "cam1" 1600 "viewer-1" false false.

Definition heap0 : loc -> PeerData := fun _ => data0.

Definition pkt (n : nat) : bytes := repeat Byte.x80 n.

Definition feed0 : Feed := mkFeed [pkt 3; pkt 2; pkt 1] ChanClosed.

(** A session as the constructor leaves it, and the same one closed. *)
Definition fresh : State :=
  Eval vm_compute in snd (newRemotePeer env 5 feed0 6 7 heap0).

Definition shut : State := Eval vm_compute in snd (Close env "ok" fresh).

(** The same libraries, except that no track can be created. *)
Definition env_no_track : Env := {|
  api_NewPeerConnection := api_NewPeerConnection env;
  json_Unmarshal_string := json_Unmarshal_string env;
  json_Unmarshal_candidate := json_Unmarshal_candidate env;
  candidate_ToJSON := candidate_ToJSON env;
  signal_SendMessage := signal_SendMessage env;
  pc_SetRemoteDescription := pc_SetRemoteDescription env;
  pc_AddICECandidate := pc_AddICECandidate env;
  webrtc_NewTrackLocalStaticRTP := fun _ _ _ _ => inr "codec not supported";
  pc_AddTrack := pc_AddTrack env;
  pc_CreateOffer := pc_CreateOffer env;
  pc_SetLocalDescription := pc_SetLocalDescription env;
  track_Write := track_Write env
|}.

(** The same libraries, except that no connection can be created. *)
Definition env_no_connection : Env := {|
  api_NewPeerConnection := fun _ _ => inr "no ICE servers";
  json_Unmarshal_string := json_Unmarshal_string env;
  json_Unmarshal_candidate := json_Unmarshal_candidate env;
  candidate_ToJSON := candidate_ToJSON env;
  signal_SendMessage := signal_SendMessage env;
  pc_SetRemoteDescription := pc_SetRemoteDescription env;
  pc_AddICECandidate := pc_AddICECandidate env;
  webrtc_NewTrackLocalStaticRTP := webrtc_NewTrackLocalStaticRTP env;
  pc_AddTrack := pc_AddTrack env;
  pc_CreateOffer := pc_CreateOffer env;
  pc_SetLocalDescription := pc_SetLocalDescription env;
  track_Write := track_Write env
|}.

(** A session whose track was never created. *)
Definition trackless : State :=
  Eval vm_compute in snd (newRemotePeer env_no_track 5 feed0 6 7 heap0).

End Fake.

Lemma fresh_is_constructed :
  Fake.fresh = snd (newRemotePeer Fake.env 5 Fake.feed0 6 7 Fake.heap0).
Proof. vm_compute. reflexivity. Qed.

(** ** Basic facts *)

Local Open Scope list_scope.

Lemma emitted_app (s s' : State) (new : list Event) :
  trace s' = new ++ trace s -> emitted s s' = rev new.
Proof.
  intros H. unfold emitted. rewrite H, length_app.
  replace (length new + length (trace s) - length (trace s)) with (length new + 0) by lia.
  rewrite firstn_app_2. simpl. now rewrite app_nil_r.
Qed.

Lemma emitted_refl (s : State) : emitted s s = [].
Proof. now rewrite (emitted_app s s []). Qed.

Lemma count_app (f : Event -> bool) (l1 l2 : list Event) :
  count f (l1 ++ l2) = count f l1 + count f l2.
Proof. unfold count. now rewrite List.filter_app, length_app. Qed.

Lemma existsb_rev (f : Event -> bool) (l : list Event) :
  existsb f (rev l) = existsb f l.
Proof.
  induction l as [|e l IH]; [reflexivity|].
  cbn. rewrite existsb_app, IH. cbn. rewrite orb_false_r. apply orb_comm.
Qed.

Lemma count_rev (f : Event -> bool) (l : list Event) : count f (rev l) = count f l.
Proof.
  induction l as [|e l IH]; [reflexivity|].
  cbn [rev]. rewrite count_app, IH. unfold count. cbn.
  destruct (f e); cbn; lia.
Qed.

Lemma filter_marks (f : Event -> bool) (rs : list string) :
  (forall r, f (Call_Close r) = false) -> List.filter f (map Call_Close rs) = [].
Proof.
  intros Hf. induction rs as [|r rs IH]; simpl; [reflexivity|]. now rewrite Hf.
Qed.

(** *** Running a method symbolically *)

Ltac prefix_of t base :=
  lazymatch t with
  | base => constr:(@nil Event)
  | ?e :: ?t' => let r := prefix_of t' base in constr:(e :: r)
  end.

(** Rewrites [emitted s s'] to the events in front of [trace s]. *)
Ltac reckon :=
  repeat match goal with
  | |- context [emitted ?s ?s'] =>
      let t' := eval cbn in (trace s') in
      let new := prefix_of t' (trace s) in
      rewrite (emitted_app s s' new) by reflexivity
  end; cbn [rev app].

Section Facts.

Variable env : Env.

(** [Close] on a closed session leaves only its mark. *)
Lemma Close_closed (s : State) (reason : string) :
  is_closed s = true ->
  Close env reason s = (Ret tt, mkState (self s) (heap s) (Call_Close reason :: trace s)).
Proof.
  unfold is_closed. intros H. unfold Close, bind, emit, load. simpl. now rewrite H.
Qed.

(** [Close] on an open session: the teardown, then the flag. *)
Lemma Close_open (s : State) (reason : string) :
  is_closed s = false ->
  Close env reason s =
    (Ret tt,
     mkState (self s)
             (<[data (self s) := set_closed (heap s (data (self s))) true]> (heap s))
             (rev (Call_Close reason :: teardown s reason) ++ trace s)).
Proof.
  unfold is_closed. intros H. unfold Close, bind, emit, load. simpl. now rewrite H.
Qed.

Lemma Close_returns (s : State) (reason : string) : fst (Close env reason s) = Ret tt.
Proof.
  destruct (is_closed s) eqn:H; [rewrite Close_closed | rewrite Close_open]; auto.
Qed.

Lemma Close_is_closed (s : State) (reason : string) :
  is_closed (snd (Close env reason s)) = true.
Proof.
  destruct (is_closed s) eqn:H; [rewrite Close_closed | rewrite Close_open]; auto.
  unfold is_closed. simpl. now rewrite fn_lookup_insert.
Qed.

Lemma Close_all_closed (s : State) (reasons : list string) :
  is_closed s = true ->
  Close_all env reasons s =
    (Ret tt, mkState (self s) (heap s) (rev (map Call_Close reasons) ++ trace s)).
Proof.
  revert s. induction reasons as [|r rs IH]; intros s H.
  - now destruct s.
  - simpl. unfold bind. rewrite Close_closed by assumption.
    rewrite IH by exact H. simpl. now rewrite <- app_assoc.
Qed.

Ltac step_Close s :=
  let H := fresh "Hc" in
  destruct (is_closed s) eqn:H;
  [ rewrite (Close_closed s) by exact H | rewrite (Close_open s) by exact H ].

(** ** [Close] *)

(** C5: the first [Close(reason)] logs, then (1) sends the [close] event
    with the reason to the peer, (2) closes the signal channel, (3)
    releases the engine's connection, (4) pushes the session id on the
    deregistration channel and (5) sets [closed]; nothing else, in this
    order, so the peer is told before anything is released. *)
Theorem Close_order (s : State) (reason : string) :
  is_closed s = false ->
  fst (Close env reason s) = Ret tt /\
  effects s (snd (Close env reason s)) =
    [ Log ("Closing peer connection, reason: " ++ reason)%string;
      SendMessage "close" (PString reason);
      SignalClose;
      PeerClose (peer (self s));
      ChanSend (close (self s)) (id (heap s (data (self s))));
      Store (data (self s)) F_closed true ] /\
  is_closed (snd (Close env reason s)) = true.
Proof.
  intros H. split; [apply Close_returns|]. split; [|apply Close_is_closed].
  rewrite Close_open by exact H. unfold effects. reckon. reflexivity.
Qed.

(** C1: [Close] is idempotent.  Called on a closed session, once or many
    times, it has no effect and changes neither the session nor the heap;
    over any sequence of calls on an open session the [close] event to the
    peer, the release of the connection and the push of the session id
    (the only send on a channel) each happen exactly once. *)
Theorem Close_idempotent (s : State) (reasons : list string) :
  (is_closed s = true ->
     fst (Close_all env reasons s) = Ret tt /\
     effects s (snd (Close_all env reasons s)) = [] /\
     self (snd (Close_all env reasons s)) = self s /\
     heap (snd (Close_all env reasons s)) = heap s) /\
  (is_closed s = false -> reasons <> [] ->
     fst (Close_all env reasons s) = Ret tt /\
     count is_close_notification (emitted s (snd (Close_all env reasons s))) = 1 /\
     count is_release (emitted s (snd (Close_all env reasons s))) = 1 /\
     count (is_deregistration (close (self s)) (id (heap s (data (self s)))))
           (emitted s (snd (Close_all env reasons s))) = 1 /\
     count is_chan_send (emitted s (snd (Close_all env reasons s))) = 1 /\
     is_closed (snd (Close_all env reasons s)) = true).
Proof.
  split.
  - intros H. rewrite Close_all_closed by exact H. cbn [fst snd self heap].
    repeat split. unfold effects.
    rewrite (emitted_app s _ (rev (map Call_Close reasons))) by reflexivity.
    rewrite rev_involutive. now apply filter_marks.
  - intros H Hne. destruct reasons as [|r rs]; [congruence|]. clear Hne.
    cbn [Close_all]. unfold bind. rewrite Close_open by exact H.
    set (s1 := mkState _ _ _).
    assert (H1 : is_closed s1 = true).
    { unfold is_closed, s1. cbn [self heap data]. now rewrite fn_lookup_insert. }
    rewrite Close_all_closed by exact H1. cbn [fst snd].
    rewrite (emitted_app s _ (rev (map Call_Close rs) ++ rev (Call_Close r :: teardown s r)))
      by (unfold s1; cbn [trace self heap]; now rewrite app_assoc).
    rewrite rev_app_distr, !rev_involutive, !count_app.
    unfold count at 2 4 6 8.
    rewrite !filter_marks by reflexivity.
    split; [reflexivity|]. unfold count. cbn.
    rewrite Nat.eqb_refl, String.eqb_refl. cbn.
    repeat split. unfold is_closed, s1. cbn. now rewrite fn_lookup_insert.
Qed.

(** ** Signal handlers *)

(** C8: an [offer] event, in any state, sends [reject] with "unexpected
    offer" and then calls [Close] with "misbehaving host": an open session
    goes through the teardown with that reason, and the session is closed
    afterwards. *)
Theorem onSignalOffer_rejects_and_closes (s : State) (msg : RawMessage) :
  fst (onSignalOffer env msg s) = Ret tt /\
  emitted s (snd (onSignalOffer env msg s)) =
    SendMessage "reject" (PString "unexpected offer")
    :: Call_Close "misbehaving host"
    :: (if is_closed s then [] else teardown s "misbehaving host") /\
  is_closed (snd (onSignalOffer env msg s)) = true.
Proof.
  unfold onSignalOffer, bind, sendMessage.
  set (s1 := mkState _ _ _).
  assert (Hs : is_closed s1 = is_closed s) by reflexivity.
  split; [apply Close_returns|]. split; [|apply Close_is_closed].
  rewrite <- Hs. step_Close s1; reckon; reflexivity.
Qed.

(** C2, as the code has it: a [close] event from the peer, in any state,
    is logged and calls [Close] with "ok", after which the session is
    closed; a [reject] event is only logged, and the session, its flags
    included, stays as it was. *)
Theorem onSignalClose_closes_onSignalReject_logs (s : State) (msg : RawMessage) :
  (fst (onSignalClose env msg s) = Ret tt /\
   emitted s (snd (onSignalClose env msg s)) =
     Log ("Remote peer requested close with message: " ++ msg)%string
     :: Call_Close "ok"
     :: (if is_closed s then [] else teardown s "ok") /\
   is_closed (snd (onSignalClose env msg s)) = true) /\
  onSignalReject msg s =
    (Ret tt,
     mkState (self s) (heap s)
             (Log ("Peer rejected signal with message " ++ msg)%string :: trace s)).
Proof.
  split; [|reflexivity].
  unfold onSignalClose, bind, emit.
  set (s1 := mkState _ _ _).
  assert (Hs : is_closed s1 = is_closed s) by reflexivity.
  split; [apply Close_returns|]. split; [|apply Close_is_closed].
  rewrite <- Hs. step_Close s1; reckon; reflexivity.
Qed.

(** ** Connection state *)

Lemma onConnectionStateChange_spawns (s : State) (st : PeerConnectionState) :
  fst (onConnectionStateChange st s) = Ret tt /\
  emitted s (snd (onConnectionStateChange st s)) =
    match st with
    | PeerConnectionStateConnected => if is_running s then [] else [GoRun]
    | _ => []
    end.
Proof.
  destruct st; cbn; try (split; [reflexivity | apply emitted_refl]).
  unfold bind, load, is_running. cbn.
  destruct (running (heap s (data (self s)))); cbn.
  - split; [reflexivity | apply emitted_refl].
  - split; [reflexivity|]. reckon. reflexivity.
Qed.

(** C10: the start of the forwarding loop looks at [running] only.  When
    the engine reports "connected" and [running] is false the goroutine
    is started, whatever [closed] is: on the session as it is, and just
    as well after a [Close] has completed on it. *)
Theorem connected_starts_loop_even_when_closed (s : State) (reason : string) :
  is_running s = false ->
  emitted s (snd (onConnectionStateChange PeerConnectionStateConnected s)) = [GoRun] /\
  is_closed (snd (Close env reason s)) = true /\
  emitted (snd (Close env reason s))
          (snd (onConnectionStateChange PeerConnectionStateConnected
                                        (snd (Close env reason s)))) = [GoRun].
Proof.
  intros H.
  assert (H' : is_running (snd (Close env reason s)) = false).
  { step_Close s; [exact H|]. unfold is_running in *. cbn.
    rewrite fn_lookup_insert. exact H. }
  split; [|split; [apply Close_is_closed|]].
  - rewrite (proj2 (onConnectionStateChange_spawns s _)). now rewrite H.
  - rewrite (proj2 (onConnectionStateChange_spawns _ _)). now rewrite H'.
Qed.

(** C4, as the code has it: on [answer], a payload that does not parse is
    logged, answered with [reject] "invalid answer" and the session is
    closed with "failed to parse answer"; a description the engine refuses
    is logged and the session is closed with "failed to add answer", and
    no [reject] is sent; when both steps succeed nothing but the engine
    call happens and the session is left as it was. *)
Theorem onSignalAnswer_outcomes (s : State) (msg : RawMessage) :
  fst (onSignalAnswer env msg s) = Ret tt /\
  match json_Unmarshal_string env msg with
  | inr err =>
      emitted s (snd (onSignalAnswer env msg s)) =
        Log ("RemotePeer: onAnswer: Unmarshal: " ++ err)%string
        :: SendMessage "reject" (PString "invalid answer")
        :: Call_Close "failed to parse answer"
        :: (if is_closed s then [] else teardown s "failed to parse answer") /\
      is_closed (snd (onSignalAnswer env msg s)) = true
  | inl ans =>
      let sd := mkSessionDescription SDPTypeAnswer ans in
      match pc_SetRemoteDescription env (trace s) sd with
      | Some err =>
          emitted s (snd (onSignalAnswer env msg s)) =
            SetRemoteDescription (peer (self s)) sd (Some err)
            :: Log ("RemotePeer: onAnswer: SetRemoteDescription: " ++ err)%string
            :: Call_Close "failed to add answer"
            :: (if is_closed s then [] else teardown s "failed to add answer") /\
          existsb is_reject (emitted s (snd (onSignalAnswer env msg s))) = false /\
          is_closed (snd (onSignalAnswer env msg s)) = true
      | None =>
          emitted s (snd (onSignalAnswer env msg s)) =
            [SetRemoteDescription (peer (self s)) sd None] /\
          self (snd (onSignalAnswer env msg s)) = self s /\
          heap (snd (onSignalAnswer env msg s)) = heap s
      end
  end.
Proof.
  unfold onSignalAnswer.
  destruct (json_Unmarshal_string env msg) as [ans|err].
  - unfold bind, setRemoteDescription. cbn [fst snd].
    destruct (pc_SetRemoteDescription env (trace s) _) as [err|] eqn:E.
    + unfold emit. cbn [fst snd self heap trace].
      set (s1 := mkState _ _ _).
      assert (Hs : is_closed s1 = is_closed s) by reflexivity.
      split; [apply Close_returns|].
      split; [|split; [|apply Close_is_closed]];
        try rewrite <- Hs; step_Close s1; reckon; reflexivity.
    + cbn. split; [reflexivity|]. split; [|split; reflexivity].
      reckon. reflexivity.
  - unfold bind, emit, sendMessage. cbn [fst snd self heap trace].
    set (s1 := mkState _ _ _).
    assert (Hs : is_closed s1 = is_closed s) by reflexivity.
    split; [apply Close_returns|]. split; [|apply Close_is_closed].
    rewrite <- Hs. step_Close s1; reckon; reflexivity.
Qed.

(** C9, as the code has it: when the payload of an [answer] event does
    not decode as a JSON string (the handler's [json.Unmarshal] into a
    string fails), the handler never calls [SetRemoteDescription], and
    the session is closed when it returns.  A payload that decodes is
    handed to the engine whatever the string is; whether it is
    well-formed SDP is found out there. *)
Theorem malformed_answer_never_applied (s : State) (msg : RawMessage) (err : error) :
  json_Unmarshal_string env msg = inr err ->
  fst (onSignalAnswer env msg s) = Ret tt /\
  existsb is_apply (emitted s (snd (onSignalAnswer env msg s))) = false /\
  is_closed (snd (onSignalAnswer env msg s)) = true.
Proof.
  intros E. unfold onSignalAnswer. rewrite E.
  unfold bind, emit, sendMessage. cbn [fst snd self heap trace].
  set (s1 := mkState _ _ _).
  split; [apply Close_returns|]. split; [|apply Close_is_closed].
  step_Close s1; reckon; reflexivity.
Qed.

(** ** The forwarding loop *)

Lemma Close_trace (s : State) (reason : string) :
  trace (snd (Close env reason s)) =
    rev (Call_Close reason :: (if is_closed s then [] else teardown s reason)) ++ trace s.
Proof. step_Close s; reflexivity. Qed.






End Facts.

(** ** Relations every step of a session keeps *)

Section Preservation.

Variable env : Env.
Variable R : State -> State -> Prop.

Hypothesis R_refl : forall s, R s s.
Hypothesis R_trans : forall a b c, R a b -> R b c -> R a c.
Hypothesis R_event : forall s e,
  is_write e = false -> R s (mkState (self s) (heap s) (e :: trace s)).
Hypothesis R_store : forall s f v, R s (snd (store f v s)).
Hypothesis R_set_track : forall s t, R s (snd (set_track t s)).
Hypothesis R_set_stream : forall s f, R s (snd (set_stream f s)).

Lemma preserves_ret {A} (a : A) : preserves R (ret a).
Proof. intros s. apply R_refl. Qed.

Lemma preserves_get : preserves R get.
Proof. intros s. apply R_refl. Qed.

Lemma preserves_load : preserves R load.
Proof. intros s. apply R_refl. Qed.

Lemma preserves_spin {A} : preserves R (@spin A).
Proof. intros s. apply R_refl. Qed.

Lemma preserves_block {A} : preserves R (@block A).
Proof. intros s. apply R_refl. Qed.

Lemma preserves_panic {A} : preserves R (@panic A).
Proof. intros s. apply R_refl. Qed.

Lemma preserves_bind {A B} (m : M A) (k : A -> M B) :
  preserves R m -> (forall a, preserves R (k a)) -> preserves R (bind m k).
Proof.
  intros Hm Hk s. unfold bind. specialize (Hm s).
  destruct (m s) as [[a| | |] s1]; cbn [snd] in *; try exact Hm.
  eapply R_trans; [exact Hm | apply Hk].
Qed.

Lemma preserves_emit (e : Event) : is_write e = false -> preserves R (emit e).
Proof. intros He s. now apply R_event. Qed.

Lemma preserves_store (f : Field) (v : bool) : preserves R (store f v).
Proof. intros s. apply R_store. Qed.

Lemma preserves_sendMessage (name : string) (p : Payload) :
  preserves R (sendMessage env name p).
Proof. intros s. now apply R_event. Qed.

Lemma preserves_setRemoteDescription (sd : SessionDescription) :
  preserves R (setRemoteDescription env sd).
Proof. intros s. now apply R_event. Qed.

Lemma preserves_addICECandidate (c : ICECandidateInit) :
  preserves R (addICECandidate env c).
Proof. intros s. now apply R_event. Qed.

Lemma preserves_newTrackLocalStaticRTP (mime tid sid : string) :
  preserves R (newTrackLocalStaticRTP env mime tid sid).
Proof. intros s. now apply R_event. Qed.

Lemma preserves_pcAddTrack (t : TrackLocalStaticRTP) : preserves R (pcAddTrack env t).
Proof. intros s. now apply R_event. Qed.

Lemma preserves_createOffer : preserves R (createOffer env).
Proof. intros s. now apply R_event. Qed.

Lemma preserves_setLocalDescription (sd : SessionDescription) :
  preserves R (setLocalDescription env sd).
Proof. intros s. now apply R_event. Qed.

Lemma preserves_set_track (t : TrackLocalStaticRTP) : preserves R (set_track t).
Proof. intros s. apply R_set_track. Qed.

Lemma preserves_set_stream (f : Feed) : preserves R (set_stream f).
Proof. intros s. apply R_set_stream. Qed.

(** One step along the binds and branches of a computation, chosen by
    the shape of its head. *)
Ltac pres1 :=
  lazymatch goal with
  | |- preserves _ (bind _ _) => apply preserves_bind; [|intros ?]
  | |- preserves _ (ret _) => apply preserves_ret
  | |- preserves _ get => apply preserves_get
  | |- preserves _ load => apply preserves_load
  | |- preserves _ spin => apply preserves_spin
  | |- preserves _ block => apply preserves_block
  | |- preserves _ panic => apply preserves_panic
  | |- preserves _ (emit _) => apply preserves_emit; reflexivity
  | |- preserves _ (store _ _) => apply preserves_store
  | |- preserves _ (sendMessage _ _ _) => apply preserves_sendMessage
  | |- preserves _ (setRemoteDescription _ _) => apply preserves_setRemoteDescription
  | |- preserves _ (addICECandidate _ _) => apply preserves_addICECandidate
  | |- preserves _ (newTrackLocalStaticRTP _ _ _ _) => apply preserves_newTrackLocalStaticRTP
  | |- preserves _ (pcAddTrack _ _) => apply preserves_pcAddTrack
  | |- preserves _ (createOffer _) => apply preserves_createOffer
  | |- preserves _ (setLocalDescription _ _) => apply preserves_setLocalDescription
  | |- preserves _ (set_track _) => apply preserves_set_track
  | |- preserves _ (set_stream _) => apply preserves_set_stream
  | |- preserves _ (match ?x with _ => _ end) => destruct x
  end.

Ltac pres := repeat pres1.

Lemma preserves_Close (reason : string) : preserves R (Close env reason).
Proof. unfold Close. pres. Qed.

Ltac pres' :=
  repeat lazymatch goal with
         | |- preserves _ (Close _ _) => apply preserves_Close
         | |- _ => pres1
         end.

Lemma preserves_Close_on_nil (reason : string) : preserves R (Close_on_nil env reason).
Proof. unfold Close_on_nil. pres. Qed.

Lemma preserves_addTrack : preserves R (addTrack env).
Proof. unfold addTrack. pres'. Qed.

Lemma preserves_beginHandshake : preserves R (beginHandshake env).
Proof. unfold beginHandshake. pres'. Qed.

(** Every operation but the forwarding loop. *)
Lemma preserves_exec (o : Op) : o <> Op_run -> preserves R (exec env o).
Proof.
  destruct o; intros Ho; try congruence; cbn [exec].
  - unfold onSignalOffer. pres'.
  - unfold onSignalReject. pres'.
  - unfold onSignalClose. pres'.
  - unfold onSignalAnswer. pres'.
  - unfold onSignalCandidate. pres'.
  - unfold onICECandidate. pres'.
  - unfold onConnectionStateChange. pres'.
  - apply preserves_addTrack.
  - apply preserves_beginHandshake.
  - apply preserves_Close.
Qed.

(** The constructor, from the state that holds the new object. *)
Lemma preserves_newRemotePeer (sig : SignalHandle) (stream_ : Feed) (close_ : Chan)
    (data_ : loc) (h : loc -> PeerData) :
  exists p,
    data p = data_ /\ track p = None /\
    R (mkState p h [NewPeerConnection (api (h data_)) (config (h data_)); Log "New Peer"])
      (snd (newRemotePeer env sig stream_ close_ data_ h)).
Proof.
  unfold newRemotePeer.
  destruct (api_NewPeerConnection env _ _) as [pc|err]; cbv zeta.
  - exists (mkRemotePeer sig (Some pc) None stream_ close_ data_).
    split; [reflexivity|]. split; [reflexivity|].
    refine ((_ : preserves R _) _).
    repeat lazymatch goal with
           | |- preserves _ (addTrack _) => apply preserves_addTrack
           | |- preserves _ (beginHandshake _) => apply preserves_beginHandshake
           | |- preserves _ (Close _ _) => apply preserves_Close
           | |- _ => pres1
           end.
  - exists (mkRemotePeer sig None None stream_ close_ data_).
    split; [reflexivity|]. split; [reflexivity|].
    refine ((_ : preserves R _) _).
    apply preserves_bind; [apply preserves_Close_on_nil | intros ?; apply preserves_ret].
Qed.

(** The loop itself, once writes are accounted for. *)
Hypothesis R_write : forall s p res,
  R s (mkState (self s) (heap s) (TrackWrite (track (self s)) p res :: trace s)).

Lemma preserves_trackWrite (p : bytes) : preserves R (trackWrite env p).
Proof. intros s. apply R_write. Qed.

Lemma preserves_forward (pkts : list bytes) (e : Ending) : preserves R (forward env pkts e).
Proof.
  induction pkts as [|p rest IH]; cbn [forward].
  - pres'.
  - repeat lazymatch goal with
           | |- preserves _ (trackWrite _ _) => apply preserves_trackWrite
           | |- preserves _ (forward _ _ _) => exact IH
           | |- preserves _ (Close _ _) => apply preserves_Close
           | |- _ => pres1
           end.
Qed.

Lemma preserves_run : preserves R (run env).
Proof.
  unfold run, wait_track.
  repeat lazymatch goal with
         | |- preserves _ (forward _ _ _) => apply preserves_forward
         | |- _ => pres1
         end.
Qed.

Lemma preserves_exec_all (o : Op) : preserves R (exec env o).
Proof.
  destruct (o) eqn:E; try (rewrite <- E; apply preserves_exec; congruence).
  apply preserves_run.
Qed.

End Preservation.

(** *** The three relations *)

Lemma frame_refl (s : State) : frame s s.
Proof. split; [reflexivity|]. intros l. now destruct (Nat.eqb l (data (self s))). Qed.

Lemma frame_trans (a b c : State) : frame a b -> frame b c -> frame a c.
Proof.
  intros [Hd1 H1] [Hd2 H2]. split; [congruence|].
  intros l. specialize (H1 l). specialize (H2 l). rewrite Hd1 in H2.
  destruct (Nat.eqb l (data (self a))); congruence.
Qed.

Lemma frame_same_heap (s : State) (p : RemotePeer) (t : list Event) :
  data p = data (self s) -> frame s (mkState p (heap s) t).
Proof.
  intros Hp. split; [exact Hp|]. intros l. cbn. now destruct (Nat.eqb l (data (self s))).
Qed.

Lemma frame_store (s : State) (f : Field) (v : bool) : frame s (snd (store f v s)).
Proof.
  split; [reflexivity|]. intros l. cbn.
  destruct (Nat.eqb l (data (self s))) eqn:E.
  - apply Nat.eqb_eq in E. subst l. rewrite fn_lookup_insert. now destruct f.
  - apply Nat.eqb_neq in E. now rewrite fn_lookup_insert_ne by congruence.
Qed.

Lemma quiet_refl (s : State) : quiet s s.
Proof. now exists []. Qed.

Lemma quiet_trans (a b c : State) : quiet a b -> quiet b c -> quiet a c.
Proof.
  intros (n1 & H1 & Q1) (n2 & H2 & Q2). exists (n2 ++ n1). split.
  - now rewrite H2, H1, app_assoc.
  - now rewrite existsb_app, Q1, Q2.
Qed.

Lemma quiet_event (s : State) (e : Event) (p : RemotePeer) (h : loc -> PeerData) :
  is_write e = false -> quiet s (mkState p h (e :: trace s)).
Proof. intros He. exists [e]. split; [reflexivity|]. cbn. now rewrite He. Qed.

Lemma quiet_same_trace (s : State) (p : RemotePeer) (h : loc -> PeerData) :
  quiet s (mkState p h (trace s)).
Proof. now exists []. Qed.

Lemma is_write_on_nil_write (e : Event) : is_write e = false -> is_write_on_nil e = false.
Proof. now destruct e as [| | | | | | | | | | | | | | | | | |[]| | |]. Qed.

Lemma quiet_no_write_on_nil (new : list Event) :
  existsb is_write new = false -> existsb is_write_on_nil new = false.
Proof.
  induction new as [|e new IH]; [reflexivity|]. cbn.
  intros H. apply orb_false_iff in H as [He Hn].
  now rewrite (is_write_on_nil_write e He), IH.
Qed.

Lemma track_kept_refl (s : State) : track_kept s s.
Proof. intros H. split; [exact H|]. now exists []. Qed.

Lemma track_kept_trans (a b c : State) : track_kept a b -> track_kept b c -> track_kept a c.
Proof.
  intros H1 H2 Ha. destruct (H1 Ha) as (Hb & n1 & E1 & Q1).
  destruct (H2 Hb) as (Hc & n2 & E2 & Q2). split; [exact Hc|].
  exists (n2 ++ n1). split.
  - now rewrite E2, E1, app_assoc.
  - now rewrite existsb_app, Q1, Q2.
Qed.

Lemma track_kept_event (s : State) (e : Event) :
  is_write_on_nil e = false ->
  track_kept s (mkState (self s) (heap s) (e :: trace s)).
Proof.
  intros He H. split; [exact H|]. exists [e]. split; [reflexivity|]. cbn. now rewrite He.
Qed.

Lemma track_kept_write (s : State) (p : bytes) (res : option error) :
  track_kept s (mkState (self s) (heap s) (TrackWrite (track (self s)) p res :: trace s)).
Proof.
  intros H. split; [exact H|]. exists [TrackWrite (track (self s)) p res].
  split; [reflexivity|]. cbn. destruct (track (self s)); [reflexivity | congruence].
Qed.

Lemma track_kept_self (s : State) (p : RemotePeer) (h : loc -> PeerData) :
  track p <> None -> track_kept s (mkState p h (trace s)).
Proof. intros Hp _. split; [exact Hp|]. now exists []. Qed.

Section Steps.

Variable env : Env.

Lemma exec_frame (o : Op) (s : State) : frame s (snd (exec env o s)).
Proof.
  apply preserves_exec_all; clear s.
  - apply frame_refl.
  - apply frame_trans.
  - intros s e _. now apply frame_same_heap.
  - apply frame_store.
  - intros s t. now apply frame_same_heap.
  - intros s f. now apply frame_same_heap.
  - intros s p res. now apply frame_same_heap.
Qed.

Lemma execs_frame (ops : list Op) (s : State) : frame s (execs env ops s).
Proof.
  revert s. induction ops as [|o ops IH]; intros s; cbn [execs].
  - apply frame_refl.
  - eapply frame_trans; [apply exec_frame | apply IH].
Qed.

Lemma exec_quiet (o : Op) (s : State) : o <> Op_run -> quiet s (snd (exec env o s)).
Proof.
  intros Ho. apply preserves_exec; try exact Ho; clear s.
  - apply quiet_refl.
  - apply quiet_trans.
  - intros s e He. now apply quiet_event.
  - intros s f v. now apply quiet_event.
  - intros s t. apply quiet_same_trace.
Qed.

Lemma exec_track_kept (o : Op) (s : State) : track_kept s (snd (exec env o s)).
Proof.
  apply preserves_exec_all; clear s.
  - apply track_kept_refl.
  - apply track_kept_trans.
  - intros s e He. apply track_kept_event. now apply is_write_on_nil_write.
  - intros s f v. now apply track_kept_event.
  - intros s t. now apply track_kept_self.
  - intros s f H. split; [exact H|]. now exists [].
  - apply track_kept_write.
Qed.

Lemma newRemotePeer_frame (sig : SignalHandle) (stream_ : Feed) (close_ : Chan)
    (data_ : loc) (h : loc -> PeerData) :
  exists p,
    data p = data_ /\ track p = None /\
    frame (mkState p h [NewPeerConnection (api (h data_)) (config (h data_)); Log "New Peer"])
          (snd (newRemotePeer env sig stream_ close_ data_ h)).
Proof.
  apply preserves_newRemotePeer.
  - apply frame_refl.
  - apply frame_trans.
  - intros s e _. now apply frame_same_heap.
  - apply frame_store.
  - intros s t. now apply frame_same_heap.
Qed.

Lemma newRemotePeer_quiet (sig : SignalHandle) (stream_ : Feed) (close_ : Chan)
    (data_ : loc) (h : loc -> PeerData) :
  exists p,
    data p = data_ /\ track p = None /\
    quiet (mkState p h [NewPeerConnection (api (h data_)) (config (h data_)); Log "New Peer"])
          (snd (newRemotePeer env sig stream_ close_ data_ h)).
Proof.
  apply preserves_newRemotePeer.
  - apply quiet_refl.
  - apply quiet_trans.
  - intros s e He. now apply quiet_event.
  - intros s f v. now apply quiet_event.
  - intros s t. apply quiet_same_trace.
Qed.

(** On a nil track the loop only raises [running] and waits. *)
Lemma run_without_track (s : State) :
  track (self s) = None ->
  run env s =
    (Spin,
     mkState (self s)
             (<[data (self s) := set_running (heap s (data (self s))) true]> (heap s))
             (Store (data (self s)) F_running true :: trace s)).
Proof.
  intros H. unfold run, wait_track, bind, store, get, spin.
  cbn [fst snd self heap trace]. now rewrite H.
Qed.

Lemma exec_writes_had_track (o : Op) (s : State) :
  writes_had_track s -> writes_had_track (snd (exec env o s)).
Proof.
  unfold writes_had_track. intros Hs.
  destruct (track (self s)) as [t|] eqn:Et.
  - destruct (exec_track_kept o s) as (_ & new & E & Q); [congruence|].
    now rewrite E, existsb_app, Q.
  - assert (Hq : o <> Op_run -> existsb is_write_on_nil (trace (snd (exec env o s))) = false).
    { intros Ho. destruct (exec_quiet o s Ho) as (new & E & Q).
      now rewrite E, existsb_app, (quiet_no_write_on_nil new Q). }
    destruct o; try (apply Hq; congruence).
    cbn [exec]. rewrite run_without_track by exact Et. exact Hs.
Qed.

Lemma execs_writes_had_track (ops : list Op) (s : State) :
  writes_had_track s -> writes_had_track (execs env ops s).
Proof.
  revert s. induction ops as [|o ops IH]; intros s Hs; cbn [execs]; [exact Hs|].
  apply IH. now apply exec_writes_had_track.
Qed.

(** C3, as the code has it: the session writes [running] and [closed]
    into the [PeerData] object it was given, so that object is not
    read-only; what no operation writes are its parameters [api],
    [config], [trackID], [streamID], [mtu] and [id], and every other
    [PeerData] object.  This holds for each operation from any state, and
    for construction followed by any operations. *)
Theorem session_writes_only_flags :
  (forall (o : Op) (s : State) (l : loc),
     if Nat.eqb l (data (self s))
     then params (heap (snd (exec env o s)) l) = params (heap s l)
     else heap (snd (exec env o s)) l = heap s l) /\
  (forall (sig : SignalHandle) (stream_ : Feed) (close_ : Chan) (data_ : loc)
          (h : loc -> PeerData) (ops : list Op) (l : loc),
     if Nat.eqb l data_
     then params (heap (session env sig stream_ close_ data_ h ops) l) = params (h l)
     else heap (session env sig stream_ close_ data_ h ops) l = h l).
Proof.
  split.
  - intros o s l. apply (exec_frame o s).
  - intros sig stream_ close_ data_ h ops l. unfold session.
    destruct (newRemotePeer_frame sig stream_ close_ data_ h) as (p & Hd & _ & Hf).
    pose proof (frame_trans _ _ _ Hf (execs_frame ops _)) as [_ H].
    specialize (H l). cbn [self heap] in H. now rewrite Hd in H.
Qed.

(** C7: in every life of a session, construction followed by any
    operations in any order, no write to the track has a nil receiver;
    and the forwarding loop started on a nil track writes nothing: it
    waits. *)
Theorem no_write_before_track :
  (forall (sig : SignalHandle) (stream_ : Feed) (close_ : Chan) (data_ : loc)
          (h : loc -> PeerData) (ops : list Op),
     existsb is_write_on_nil (trace (session env sig stream_ close_ data_ h ops)) = false) /\
  (forall s : State,
     track (self s) = None ->
     fst (run env s) = Spin /\
     existsb is_write (emitted s (snd (run env s))) = false).
Proof.
  split.
  - intros sig stream_ close_ data_ h ops. unfold session.
    apply execs_writes_had_track. unfold writes_had_track.
    destruct (newRemotePeer_quiet sig stream_ close_ data_ h) as (p & _ & _ & new & E & Q).
    rewrite E, existsb_app, (quiet_no_write_on_nil new Q). reflexivity.
  - intros s H. rewrite run_without_track by exact H. split; [reflexivity|].
    cbn [snd]. reckon. reflexivity.
Qed.

End Steps.

(** C7 at a session whose track could not be created. *)
Lemma no_write_before_track_witness :
  track (self Fake.trackless) = None /\
  fst (run Fake.env Fake.trackless) = Spin /\
  existsb is_write (emitted Fake.trackless (snd (run Fake.env Fake.trackless))) = false.
Proof.
  split; [reflexivity|].
  exact (proj2 (no_write_before_track Fake.env) Fake.trackless eq_refl).
Defined.

(** C9 at a payload that is a JSON object, not a string. *)
Lemma malformed_answer_never_applied_witness :
  json_Unmarshal_string Fake.env "{}" = inr "cannot unmarshal into Go value of type string" /\
  existsb is_apply (emitted Fake.fresh (snd (onSignalAnswer Fake.env "{}" Fake.fresh))) = false /\
  is_closed (snd (onSignalAnswer Fake.env "{}" Fake.fresh)) = true.
Proof.
  split; [reflexivity|].
  exact (proj2 (malformed_answer_never_applied Fake.env Fake.fresh "{}" _ eq_refl)).
Defined.

(** C2 as written fails: a [reject] event leaves an open session open. *)
Lemma reject_does_not_close :
  ~ reject_and_close_both_close Fake.env Fake.fresh (Fake.quoted "no thanks").
Proof.
  intros [H _].
  assert (E : is_closed (snd (onSignalReject (Fake.quoted "no thanks") Fake.fresh)) = false)
    by (vm_compute; reflexivity).
  congruence.
Qed.

(** C9 as written fails: a JSON string that is not SDP is handed to
    [SetRemoteDescription]. *)
Lemma invalid_sdp_string_is_applied :
  ~ malformed_answer_never_reaches_engine Fake.env Fake.valid_sdp Fake.fresh
      (Fake.quoted "garbage").
Proof.
  intros H.
  assert (A : match json_Unmarshal_string Fake.env (Fake.quoted "garbage") with
              | inl sdp => Fake.valid_sdp sdp
              | inr _ => false
              end = false) by (vm_compute; reflexivity).
  destruct (H A) as [H1 _].
  assert (E : existsb is_apply
                (emitted Fake.fresh
                   (snd (onSignalAnswer Fake.env (Fake.quoted "garbage") Fake.fresh))) = true)
    by (vm_compute; reflexivity).
  congruence.
Qed.

(** C4 as written fails: a description the engine refuses closes the
    session without a [reject]. *)
Lemma refused_answer_sends_no_reject :
  ~ answer_failure_rejects_and_closes Fake.env Fake.fresh (Fake.quoted "garbage").
Proof.
  unfold answer_failure_rejects_and_closes. cbv zeta.
  assert (E1 : json_Unmarshal_string Fake.env (Fake.quoted "garbage") = inl "garbage")
    by (vm_compute; reflexivity).
  assert (E2 : existsb is_failed_apply
                 (emitted Fake.fresh
                    (snd (onSignalAnswer Fake.env (Fake.quoted "garbage") Fake.fresh))) = true)
    by (vm_compute; reflexivity).
  assert (E3 : existsb is_reject
                 (emitted Fake.fresh
                    (snd (onSignalAnswer Fake.env (Fake.quoted "garbage") Fake.fresh))) = false)
    by (vm_compute; reflexivity).
  rewrite E1, E2, E3. intros [H _]. discriminate.
Qed.

(** C3 as written fails: [Close] writes [closed] into the shared object. *)
Lemma Close_writes_shared_data :
  ~ shared_data_never_written Fake.env Fake.fresh (Op_Close "bye").
Proof.
  intros H. specialize (H 7).
  assert (E : closed (heap (snd (exec Fake.env (Op_Close "bye") Fake.fresh)) 7)
              <> closed (heap Fake.fresh 7))
    by (vm_compute; discriminate).
  congruence.
Qed.

(** C1 at a closed and at an open session. *)
Lemma Close_idempotent_witness :
  (is_closed Fake.shut = true /\
   effects Fake.shut (snd (Close_all Fake.env ["a"; "b"] Fake.shut)) = []) /\
  (is_closed Fake.fresh = false /\
   count is_close_notification
         (emitted Fake.fresh (snd (Close_all Fake.env ["a"; "b"; "c"] Fake.fresh))) = 1).
Proof.
  split; (split; [reflexivity|]).
  - exact (proj1 (proj2 (proj1 (Close_idempotent Fake.env Fake.shut ["a"; "b"]) eq_refl))).
  - refine (proj1 (proj2 (proj2 (Close_idempotent Fake.env Fake.fresh ["a"; "b"; "c"])
                                eq_refl _))).
    discriminate.
Defined.

(** C10 at a fresh session closed with "ok". *)
Lemma connected_starts_loop_even_when_closed_witness :
  is_running Fake.fresh = false /\
  is_closed Fake.shut = true /\
  emitted Fake.shut
          (snd (onConnectionStateChange PeerConnectionStateConnected Fake.shut)) = [GoRun].
Proof.
  split; [reflexivity|].
  exact (proj2 (connected_starts_loop_even_when_closed Fake.env Fake.fresh "ok" eq_refl)).
Defined.

(** The loop started on the closed session forwards the feed. *)
Example closed_session_forwards :
  List.filter is_write (emitted Fake.shut (snd (run Fake.env Fake.shut))) =
    [ TrackWrite (Some 12) (Fake.pkt 3) None;
      TrackWrite (Some 12) (Fake.pkt 2) None;
      TrackWrite (Some 12) (Fake.pkt 1) None ].
Proof. reflexivity. Qed.

(** Two sessions given the same [PeerData]: once the first is closed the
    second is born closed, and its own [Close] tears nothing down. *)
Example sibling_on_shared_data_is_closed :
  let sibling := snd (newRemotePeer Fake.env 8 Fake.feed0 9 7 (heap Fake.shut)) in
  is_closed sibling = true /\
  effects sibling (snd (Close Fake.env "bye" sibling)) = [].
Proof. vm_compute. split; reflexivity. Qed.


(** C5 at a fresh session. *)
Lemma Close_order_witness :
  is_closed Fake.fresh = false /\
  effects Fake.fresh (snd (Close Fake.env "bye" Fake.fresh)) =
    [ Log "Closing peer connection, reason: bye";
      SendMessage "close" (PString "bye");
      SignalClose;
      PeerClose (Some 11);
      ChanSend 6 "viewer-1";
      Store 7 F_closed true ].
Proof.
  split; [reflexivity|].
  exact (proj1 (proj2 (Close_order Fake.env Fake.fresh "bye" eq_refl))).
Defined.

(** A whole life: offer first, a valid answer, two candidates,
    "connected", then three packets written in the order received. *)
Example three_packets_forwarded :
  let life :=
    session Fake.env 5 Fake.feed0 6 7 Fake.heap0
            [ Op_onSignalAnswer (Fake.quoted "v=0 answer");
              Op_onSignalCandidate "{a}";
              Op_onSignalCandidate "{b}";
              Op_onConnectionStateChange PeerConnectionStateConnected;
              Op_run ] in
  List.filter (fun e => match e with SendMessage _ _ => true | _ => false end)
              (firstn 16 (rev (trace life)))
    = [SendMessage "offer" (PString "v=0 offer")] /\
  List.filter is_write (rev (trace life)) =
    [ TrackWrite (Some 12) (Fake.pkt 3) None;
      TrackWrite (Some 12) (Fake.pkt 2) None;
      TrackWrite (Some 12) (Fake.pkt 1) None ].
Proof. vm_compute. split; reflexivity. Qed.

(** A [close] from the peer before any answer: one [close] back, the id
    pushed once, the session closed. *)
Example close_before_answer :
  let life :=
    session Fake.env 5 Fake.feed0 6 7 Fake.heap0 [Op_onSignalClose (Fake.quoted "bye")] in
  count is_close_notification (rev (trace life)) = 1 /\
  count (is_deregistration 6 "viewer-1") (rev (trace life)) = 1 /\
  is_closed life = true.
Proof. vm_compute. repeat split; reflexivity. Qed.

(** ** Relations kept around [Close] *)

(** [Close] and the connection-state callback are taken as wholes here,
    and every other step of a method is benign; relations that [Close]
    keeps only from its entry to its exit, or that depend on when the loop
    is started, can then be followed through every method. *)
Section Around_Close.

Variable env : Env.
Variable R : State -> State -> Prop.

Hypothesis R_refl : forall s, R s s.
Hypothesis R_trans : forall a b c, R a b -> R b c -> R a c.
Hypothesis R_benign : forall s e,
  benign e = true -> R s (mkState (self s) (heap s) (e :: trace s)).
Hypothesis R_running : forall s v, R s (snd (store F_running v s)).
Hypothesis R_set_track : forall s t, R s (snd (set_track t s)).
Hypothesis R_set_stream : forall s f, R s (snd (set_stream f s)).
Hypothesis R_Close : forall reason, preserves R (Close env reason).
Hypothesis R_conn : forall st, preserves R (onConnectionStateChange st).

Lemma around_emit (e : Event) : benign e = true -> preserves R (emit e).
Proof. intros He s. now apply R_benign. Qed.

Lemma around_sendMessage (name : string) (p : Payload) :
  String.eqb name "close" = false -> preserves R (sendMessage env name p).
Proof. intros Hn s. apply R_benign. cbn. now rewrite Hn. Qed.

Lemma around_call {A} (m : M A) :
  (forall s, exists e, benign e = true /\
                       snd (m s) = mkState (self s) (heap s) (e :: trace s)) ->
  preserves R m.
Proof. intros H s. destruct (H s) as (e & He & ->). now apply R_benign. Qed.

Ltac around1 IH :=
  lazymatch goal with
  | |- preserves _ (bind _ _) => apply (preserves_bind R R_trans); [|intros ?]
  | |- preserves _ (ret _) => apply (preserves_ret R R_refl)
  | |- preserves _ get => apply (preserves_get R R_refl)
  | |- preserves _ load => apply (preserves_load R R_refl)
  | |- preserves _ spin => apply (preserves_spin R R_refl)
  | |- preserves _ block => apply (preserves_block R R_refl)
  | |- preserves _ (emit _) => apply around_emit; reflexivity
  | |- preserves _ (store F_running _) => intros ?; apply R_running
  | |- preserves _ (sendMessage _ _ _) => apply around_sendMessage; reflexivity
  | |- preserves _ (Close _ _) => apply R_Close
  | |- preserves _ (set_track _) => intros ?; apply R_set_track
  | |- preserves _ (set_stream _) => intros ?; apply R_set_stream
  | |- preserves _ (forward _ _ _) => apply IH
  | |- preserves _ (match ?x with _ => _ end) => destruct x
  | |- preserves _ _ =>
      apply around_call; intros ?; eexists; split; [|reflexivity]; reflexivity
  end.

Ltac around := repeat around1 I.

Lemma around_addTrack : preserves R (addTrack env).
Proof. unfold addTrack. around. Qed.

Lemma around_beginHandshake : preserves R (beginHandshake env).
Proof. unfold beginHandshake. around. Qed.

Lemma around_forward (pkts : list bytes) (e : Ending) : preserves R (forward env pkts e).
Proof.
  induction pkts as [|p rest IH]; cbn [forward].
  - around.
  - repeat around1 IH.
Qed.

Lemma around_run : preserves R (run env).
Proof. unfold run, wait_track. repeat around1 (around_forward). Qed.

Lemma around_exec (o : Op) : preserves R (exec env o).
Proof.
  destruct o; cbn [exec].
  - unfold onSignalOffer. around.
  - unfold onSignalReject. around.
  - unfold onSignalClose. around.
  - unfold onSignalAnswer. around.
  - unfold onSignalCandidate. around.
  - unfold onICECandidate. around.
  - apply R_conn.
  - apply around_run.
  - apply around_addTrack.
  - apply around_beginHandshake.
  - apply R_Close.
Qed.

(** The same without the loop, and so without a word on [running]. *)
Lemma around_handler (o : Op) : is_handler o = true -> preserves R (exec env o).
Proof.
  destruct o; intros Ho; try discriminate; cbn [exec].
  - unfold onSignalOffer. around.
  - unfold onSignalReject. around.
  - unfold onSignalClose. around.
  - unfold onSignalAnswer. around.
  - unfold onSignalCandidate. around.
  - unfold onICECandidate. around.
  - apply R_conn.
  - apply around_addTrack.
  - apply around_beginHandshake.
  - apply R_Close.
Qed.

Lemma around_handlers (ops : list Op) (s : State) :
  forallb is_handler ops = true -> R s (execs env ops s).
Proof.
  revert s. induction ops as [|o ops IH]; intros s H; cbn [execs].
  - apply R_refl.
  - cbn in H. apply andb_true_iff in H as [Ho Hops].
    exact (R_trans _ _ _ (around_handler o Ho s) (IH _ Hops)).
Qed.

Lemma around_execs (ops : list Op) (s : State) : R s (execs env ops s).
Proof.
  revert s. induction ops as [|o ops IH]; intros s; cbn [execs].
  - apply R_refl.
  - eapply R_trans; [apply around_exec | apply IH].
Qed.

(** The constructor when the engine gave a connection. *)
Lemma around_newRemotePeer_connected (sig : SignalHandle) (stream_ : Feed) (close_ : Chan)
    (data_ : loc) (h : loc -> PeerData) (pc : PeerConnection) :
  api_NewPeerConnection env (api (h data_)) (config (h data_)) = inl pc ->
  R (born env sig stream_ close_ data_ h)
    (snd (newRemotePeer env sig stream_ close_ data_ h)).
Proof.
  intros E. unfold newRemotePeer, born. cbv zeta. rewrite E.
  refine ((_ : preserves R _) _).
  repeat lazymatch goal with
         | |- preserves _ (addTrack _) => apply around_addTrack
         | |- preserves _ (beginHandshake _) => apply around_beginHandshake
         | |- _ => around1 I
         end.
Qed.


(** The constructor in both cases, once the [Close] on the nil connection
    is accounted for. *)
Hypothesis R_Close_on_nil : forall reason, preserves R (Close_on_nil env reason).

Lemma around_newRemotePeer (sig : SignalHandle) (stream_ : Feed) (close_ : Chan)
    (data_ : loc) (h : loc -> PeerData) :
  R (born env sig stream_ close_ data_ h)
    (snd (newRemotePeer env sig stream_ close_ data_ h)).
Proof.
  destruct (api_NewPeerConnection env (api (h data_)) (config (h data_))) as [pc|err] eqn:E.
  - now apply (around_newRemotePeer_connected _ _ _ _ _ pc).
  - unfold newRemotePeer, born. cbv zeta. rewrite E.
    refine ((_ : preserves R _) _).
    apply (preserves_bind R R_trans); [apply R_Close_on_nil|].
    intros ?. apply (preserves_ret R R_refl).
Qed.

Lemma around_session (sig : SignalHandle) (stream_ : Feed) (close_ : Chan)
    (data_ : loc) (h : loc -> PeerData) (ops : list Op) :
  R (born env sig stream_ close_ data_ h)
    (session env sig stream_ close_ data_ h ops).
Proof.
  unfold session. eapply R_trans; [apply around_newRemotePeer | apply around_execs].
Qed.

End Around_Close.

(** ** The teardown over a whole life *)

Lemma benign_not_teardown (e : Event) :
  benign e = true ->
  is_close_notification e = false /\ is_signal_close e = false /\
  is_release e = false /\ is_chan_send e = false.
Proof.
  destruct e; cbn; try (intros; repeat split; congruence).
  intros H. apply negb_true_iff in H. now rewrite H.
Qed.

Lemma teardown_count_app (n m : nat) (l1 l2 : list Event) :
  teardown_count n l1 -> teardown_count m l2 -> teardown_count (n + m) (l1 ++ l2).
Proof.
  intros (A1 & A2 & A3 & A4) (B1 & B2 & B3 & B4). unfold teardown_count.
  rewrite !count_app. repeat split; congruence.
Qed.

Lemma teardown_count_rev (n : nat) (l : list Event) :
  teardown_count n l -> teardown_count n (rev l).
Proof. unfold teardown_count. now rewrite !count_rev. Qed.

Lemma once_refl (s : State) : once s s.
Proof.
  split; [reflexivity|]. split; [tauto|]. exists []. split; [reflexivity|].
  destruct (is_closed s); repeat split.
Qed.

Lemma once_trans (a b c : State) : once a b -> once b c -> once a c.
Proof.
  intros (D1 & M1 & n1 & E1 & T1) (D2 & M2 & n2 & E2 & T2).
  split; [congruence|]. split; [tauto|].
  exists (n2 ++ n1). split; [now rewrite E2, E1, app_assoc|].
  pose proof (teardown_count_app _ _ _ _ T2 T1) as T.
  destruct (is_closed a), (is_closed b), (is_closed c); cbn in T |- *;
    try exact T;
    first [ specialize (M1 eq_refl); discriminate | specialize (M2 eq_refl); discriminate ].
Qed.

Lemma once_quiet (s : State) (p : RemotePeer) (h : loc -> PeerData) (new : list Event) :
  data p = data (self s) ->
  closed (h (data (self s))) = is_closed s ->
  teardown_count 0 new ->
  once s (mkState p h (new ++ trace s)).
Proof.
  intros Hp Hc T. split; [exact Hp|].
  assert (E : is_closed (mkState p h (new ++ trace s)) = is_closed s).
  { unfold is_closed at 1. cbn [self heap]. now rewrite Hp. }
  split; [congruence|]. exists new. split; [reflexivity|].
  rewrite E. now destruct (is_closed s).
Qed.

Lemma onConnectionStateChange_state (st : PeerConnectionState) (s : State) :
  snd (onConnectionStateChange st s) =
    mkState (self s) (heap s)
            (match st with
             | PeerConnectionStateConnected => if is_running s then [] else [GoRun]
             | _ => []
             end ++ trace s).
Proof.
  destruct s as [p h t]. destruct st; try reflexivity.
  unfold onConnectionStateChange, bind, load, is_running. cbn.
  now destruct (running (h (data p))).
Qed.

Lemma once_conn (st : PeerConnectionState) : preserves once (onConnectionStateChange st).
Proof.
  intros s. rewrite onConnectionStateChange_state.
  apply once_quiet; try reflexivity.
  destruct st; try destruct (is_running s); repeat split.
Qed.

Section Lives.

Variable env : Env.

Lemma once_Close (reason : string) : preserves once (Close env reason).
Proof.
  intros s. destruct (is_closed s) eqn:H.
  - rewrite Close_closed by exact H. cbn [snd].
    apply (once_quiet s (self s) (heap s) [Call_Close reason]); try reflexivity.
    repeat split.
  - rewrite Close_open by exact H. cbn [snd].
    split; [reflexivity|]. split; [congruence|].
    exists (rev (Call_Close reason :: teardown s reason)). split; [reflexivity|].
    rewrite H. unfold is_closed at 1. cbn [self heap]. rewrite fn_lookup_insert.
    cbn [closed set_closed]. apply teardown_count_rev. repeat split.
Qed.

Lemma exec_once (o : Op) (s : State) : once s (snd (exec env o s)).
Proof.
  apply around_exec; clear s.
  - apply once_refl.
  - apply once_trans.
  - intros s e He. apply (once_quiet s (self s) (heap s) [e]); try reflexivity.
    destruct (benign_not_teardown e He) as (A & B & C & D).
    unfold teardown_count, count. cbn. now rewrite A, B, C, D.
  - intros s v. cbn [snd store].
    apply (once_quiet s (self s) _ [Store (data (self s)) F_running v]); try reflexivity.
    + now rewrite fn_lookup_insert.
    + repeat split.
  - intros s t. now apply (once_quiet s _ (heap s) []).
  - intros s f. now apply (once_quiet s _ (heap s) []).
  - apply once_Close.
  - apply once_conn.
Qed.


Lemma execs_once (ops : list Op) (s : State) : once s (execs env ops s).
Proof.
  revert s. induction ops as [|o ops IH]; intros s; cbn [execs].
  - apply once_refl.
  - eapply once_trans; [apply exec_once | apply IH].
Qed.


(** X2: closed is absorbing.  Whatever runs on a closed session, in any
    number and order, the session stays closed and none of the four
    teardown actions happens again. *)
Theorem closed_is_absorbing (ops : list Op) (s : State) :
  is_closed s = true ->
  is_closed (execs env ops s) = true /\
  teardown_count 0 (emitted s (execs env ops s)).
Proof.
  intros H. destruct (execs_once ops s) as (_ & M & new & E & T).
  split; [exact (M H)|]. rewrite (emitted_app _ _ _ E).
  apply teardown_count_rev. now rewrite H in T.
Qed.

End Lives.


(** X2 at a closed session that gets an offer, a malformed answer, a
    second [Close] and the forwarding loop. *)
Lemma closed_is_absorbing_witness :
  is_closed Fake.shut = true /\
  is_closed (execs Fake.env
               [Op_onSignalOffer "x"; Op_onSignalAnswer "{}"; Op_Close "again"; Op_run]
               Fake.shut) = true.
Proof.
  split; [reflexivity|].
  exact (proj1 (closed_is_absorbing Fake.env
                  [Op_onSignalOffer "x"; Op_onSignalAnswer "{}"; Op_Close "again"; Op_run]
                  Fake.shut eq_refl)).
Defined.

(** ** The forwarding loop, continued *)

Lemma guard_refl (s : State) : guard s s.
Proof. split; [reflexivity|]. split; [reflexivity|]. now exists []. Qed.

Lemma guard_trans (a b c : State) : guard a b -> guard b c -> guard a c.
Proof.
  intros (D1 & K1 & n1 & E1 & G1) (D2 & K2 & n2 & E2 & G2).
  split; [congruence|]. split; [congruence|].
  exists (n2 ++ n1). split; [now rewrite E2, E1, app_assoc|].
  intros H. rewrite existsb_app, G1 by exact H. rewrite G2 by congruence. reflexivity.
Qed.

Lemma guard_step (s : State) (p : RemotePeer) (h : loc -> PeerData) (new : list Event) :
  data p = data (self s) ->
  running (h (data (self s))) = is_running s ->
  (is_running s = true -> existsb is_go_run new = false) ->
  guard s (mkState p h (new ++ trace s)).
Proof.
  intros Hp Hr Hn. split; [exact Hp|]. split.
  - unfold is_running at 1. cbn [self heap]. now rewrite Hp.
  - now exists new.
Qed.

Lemma benign_not_go_run (e : Event) : benign e = true -> is_go_run e = false.
Proof. now destruct e. Qed.

Section Loop.

Variable env : Env.

Lemma Close_self (s : State) (reason : string) : self (snd (Close env reason s)) = self s.
Proof.
  destruct (is_closed s) eqn:H; [rewrite Close_closed | rewrite Close_open]; auto.
Qed.

Lemma guard_Close (reason : string) : preserves guard (Close env reason).
Proof.
  intros s. destruct (is_closed s) eqn:H.
  - rewrite Close_closed by exact H. cbn [snd].
    now apply (guard_step s (self s) (heap s) [Call_Close reason]).
  - rewrite Close_open by exact H. cbn [snd].
    apply guard_step; try reflexivity.
    now rewrite fn_lookup_insert.
Qed.

Lemma guard_conn (st : PeerConnectionState) : preserves guard (onConnectionStateChange st).
Proof.
  intros s. rewrite onConnectionStateChange_state.
  apply guard_step; try reflexivity.
  intros H. rewrite H. now destruct st.
Qed.

Lemma guard_benign (s : State) (e : Event) :
  benign e = true -> guard s (mkState (self s) (heap s) (e :: trace s)).
Proof.
  intros He. apply (guard_step s (self s) (heap s) [e]); try reflexivity.
  intros _. cbn. now rewrite (benign_not_go_run e He).
Qed.

Lemma forward_guard (pkts : list bytes) (e : Ending) (s : State) :
  guard s (snd (forward env pkts e s)).
Proof.
  apply around_forward; clear s.
  - apply guard_refl.
  - apply guard_trans.
  - apply guard_benign.
  - intros s f. now apply (guard_step s _ (heap s) []).
  - apply guard_Close.
Qed.

Lemma handlers_guard (ops : list Op) (s : State) :
  forallb is_handler ops = true -> guard s (execs env ops s).
Proof.
  apply around_handlers.
  - apply guard_refl.
  - apply guard_trans.
  - apply guard_benign.
  - intros s0 t. now apply (guard_step s0 _ (heap s0) []).
  - apply guard_Close.
  - apply guard_conn.
Qed.

(** A loop that has not come back has [running] set. *)
Lemma run_pending_running (s : State) :
  returned (fst (run env s)) = false -> is_running (snd (run env s)) = true.
Proof.
  unfold run, wait_track, bind, store, get, spin, ret.
  cbn [fst snd self heap trace track stream].
  set (s1 := mkState _ _ _).
  assert (H1 : is_running s1 = true).
  { unfold is_running, s1. cbn [self heap data]. now rewrite fn_lookup_insert. }
  destruct (track (self s)); [|intros _; exact H1].
  pose proof (forward_guard (packets (stream (self s))) (ending (stream (self s))) s1)
    as (_ & K & _).
  destruct (forward env _ _ s1) as [[[]| | |] s2]; cbn [fst snd returned] in *;
    try discriminate; intros _; congruence.
Qed.

(** X3: while a forwarding loop has not come back (it waits for the track
    or for a packet), [running] stays set and no handler or callback, in
    any number and order, starts a second loop. *)
Theorem loop_started_once (s : State) (ops : list Op) :
  returned (fst (run env s)) = false ->
  forallb is_handler ops = true ->
  is_running (execs env ops (snd (run env s))) = true /\
  existsb is_go_run (emitted (snd (run env s)) (execs env ops (snd (run env s)))) = false.
Proof.
  intros Hr Hops. pose proof (run_pending_running s Hr) as H1.
  destruct (handlers_guard ops (snd (run env s)) Hops) as (_ & K & new & E & G).
  split; [congruence|].
  rewrite (emitted_app _ _ _ E), existsb_rev. now apply G.
Qed.

(** [forward] on the packets the channel holds: what was handed to
    [Write], followed by what is left in the channel, is what the channel
    held; and every packet received was handed to [Write]. *)
Lemma forward_order (pkts : list bytes) (e : Ending) (s : State) :
  stream (self s) = mkFeed pkts e ->
  exists new,
    trace (snd (forward env pkts e s)) = new ++ trace s /\
    written (rev new) ++ packets (stream (self (snd (forward env pkts e s)))) = pkts /\
    received (rev new) = written (rev new) /\
    ending (stream (self (snd (forward env pkts e s)))) = e.
Proof.
  revert s. induction pkts as [|p rest IH]; intros s Hs.
  - destruct e; cbn [forward].
    + unfold bind, emit. cbn [fst snd self heap trace].
      set (s1 := mkState _ _ _).
      exists (rev (Call_Close "failed to read stream"
                   :: (if is_closed s1 then [] else teardown s1 "failed to read stream"))
              ++ [Log "RemotePeer: run: channel closed"; Recv None]).
      assert (Hs1 : stream (self s1) = stream (self s)) by reflexivity.
      assert (Ht1 : trace s1 = [Log "RemotePeer: run: channel closed"; Recv None] ++ trace s)
        by reflexivity.
      rewrite Close_trace, Close_self, Hs1, Hs, Ht1, app_assoc.
      split; [reflexivity|].
      rewrite rev_app_distr, rev_involutive. destruct (is_closed s1); repeat split.
    + exists []. cbn. now rewrite Hs.
  - cbn [forward]. unfold bind, set_stream, emit, trackWrite.
    cbn [fst snd self heap trace track].
    destruct (track_Write env (Recv (Some p) :: trace s) p) as [err|] eqn:E.
    + set (s1 := mkState _ _ _).
      exists (rev (Call_Close "failed to write track"
                   :: (if is_closed s1 then [] else teardown s1 "failed to write track"))
              ++ [Log ("RemotePeer: run: Write: " ++ err)%string;
                  TrackWrite (track (self s)) p (Some err); Recv (Some p)]).
      assert (Hs1 : stream (self s1) = mkFeed rest e) by reflexivity.
      assert (Ht1 : trace s1 = [Log ("RemotePeer: run: Write: " ++ err)%string;
                                TrackWrite (track (self s)) p (Some err); Recv (Some p)]
                               ++ trace s) by reflexivity.
      rewrite Close_trace, Close_self, Hs1, Ht1, app_assoc.
      split; [reflexivity|].
      rewrite rev_app_distr, rev_involutive. destruct (is_closed s1); repeat split.
    + set (s1 := mkState _ _ _).
      destruct (IH s1 eq_refl) as (new & Ht & Hw & Hr & He).
      exists (new ++ [TrackWrite (track (self s)) p None; Recv (Some p)]).
      split; [rewrite Ht; unfold s1; cbn [trace]; now rewrite <- app_assoc|].
      rewrite rev_app_distr. cbn [rev app]. unfold written, received in *.
      cbn [flat_map app]. rewrite Hr, He. repeat split. now rewrite Hw.
Qed.

(** X4: the loop forwards in order and loses nothing.  The payloads it
    handed to [Write], in the order of the calls, followed by the packets
    still in the channel when it stopped, are the packets the channel
    held when it started; each packet it received was handed to [Write],
    the failing one included; and the channel ends as it would have. *)
Theorem run_forwards_in_order (s : State) :
  written (emitted s (snd (run env s))) ++ packets (stream (self (snd (run env s))))
    = packets (stream (self s)) /\
  received (emitted s (snd (run env s))) = written (emitted s (snd (run env s))) /\
  ending (stream (self (snd (run env s)))) = ending (stream (self s)).
Proof.
  unfold run, wait_track, bind, store, get, spin, ret.
  cbn [fst snd self heap trace track stream].
  destruct (track (self s)) as [t|] eqn:Et.
  - set (s1 := mkState _ _ _).
    assert (Hs : stream (self s1) = mkFeed (packets (stream (self s))) (ending (stream (self s))))
      by (unfold s1; cbn [self]; now destruct (stream (self s))).
    destruct (forward_order _ _ s1 Hs) as (new & Ht & Hw & Hr & He).
    destruct (forward env _ _ s1) as [[[]| | |] s2]; cbn [fst snd] in *.
    + rewrite (emitted_app s _ ([Store (data (self s2)) F_running false]
                                  ++ new ++ [Store (data (self s)) F_running true]))
        by (cbn [trace app]; rewrite Ht; unfold s1; cbn [trace]; now rewrite <- app_assoc).
      cbn [self]. rewrite !rev_app_distr. cbn [rev app]. unfold written, received in *.
      cbn [flat_map app]. rewrite !flat_map_app. cbn [flat_map app]. rewrite !app_nil_r.
      repeat split; assumption.
    + rewrite (emitted_app s _ (new ++ [Store (data (self s)) F_running true]))
        by (rewrite Ht; unfold s1; cbn [trace]; now rewrite <- app_assoc).
      rewrite !rev_app_distr. cbn [rev app]. unfold written, received in *.
      cbn [flat_map app]. repeat split; assumption.
    + rewrite (emitted_app s _ (new ++ [Store (data (self s)) F_running true]))
        by (rewrite Ht; unfold s1; cbn [trace]; now rewrite <- app_assoc).
      rewrite !rev_app_distr. cbn [rev app]. unfold written, received in *.
      cbn [flat_map app]. repeat split; assumption.
    + rewrite (emitted_app s _ (new ++ [Store (data (self s)) F_running true]))
        by (rewrite Ht; unfold s1; cbn [trace]; now rewrite <- app_assoc).
      rewrite !rev_app_distr. cbn [rev app]. unfold written, received in *.
      cbn [flat_map app]. repeat split; assumption.
  - rewrite (emitted_app s _ [Store (data (self s)) F_running true]) by reflexivity.
    cbn. repeat split.
Qed.

End Loop.

(** X3 at a session whose track was never created: the loop spins, and a
    burst of callbacks starts no other. *)
Lemma loop_started_once_witness :
  returned (fst (run Fake.env Fake.trackless)) = false /\
  is_running
    (execs Fake.env
       [Op_onConnectionStateChange PeerConnectionStateConnected;
        Op_onSignalCandidate "{c}";
        Op_onConnectionStateChange PeerConnectionStateConnected]
       (snd (run Fake.env Fake.trackless))) = true.
Proof.
  split; [reflexivity|].
  exact (proj1 (loop_started_once Fake.env Fake.trackless
                  [Op_onConnectionStateChange PeerConnectionStateConnected;
                   Op_onSignalCandidate "{c}";
                   Op_onConnectionStateChange PeerConnectionStateConnected]
                  eq_refl eq_refl)).
Defined.

(** ** What the handlers leave alone *)

Lemma handles_kept_refl (s : State) : handles_kept s s.
Proof. repeat split. Qed.

Lemma handles_kept_trans (a b c : State) :
  handles_kept a b -> handles_kept b c -> handles_kept a c.
Proof. unfold handles_kept. intuition congruence. Qed.

Lemma stream_kept_trans (a b c : State) : stream_kept a b -> stream_kept b c -> stream_kept a c.
Proof. unfold stream_kept. congruence. Qed.

Section Handles.

Variable env : Env.

Lemma handles_kept_Close (reason : string) : preserves handles_kept (Close env reason).
Proof. intros s. unfold handles_kept. rewrite Close_self. repeat split. Qed.

Lemma handles_kept_Close_on_nil (reason : string) :
  preserves handles_kept (Close_on_nil env reason).
Proof.
  intros s. unfold Close_on_nil, bind, emit, load, sendMessage, panic, ret.
  cbn [fst snd self heap trace]. destruct (closed (heap s (data (self s)))); repeat split.
Qed.

Lemma handles_kept_conn (st : PeerConnectionState) :
  preserves handles_kept (onConnectionStateChange st).
Proof. intros s. rewrite onConnectionStateChange_state. repeat split. Qed.

(** X5: a session never rebinds what the constructor stored.  After
    construction and any operations in any order, its signal channel,
    deregistration channel and data pointer are the ones it was given,
    and its connection is the one [NewPeerConnection] returned (nil if it
    failed). *)
Theorem handles_never_rebound (sig : SignalHandle) (stream_ : Feed) (close_ : Chan)
    (data_ : loc) (h : loc -> PeerData) (ops : list Op) :
  signal (self (session env sig stream_ close_ data_ h ops)) = sig /\
  peer (self (session env sig stream_ close_ data_ h ops)) =
    match api_NewPeerConnection env (api (h data_)) (config (h data_)) with
    | inl p => Some p
    | inr _ => None
    end /\
  close (self (session env sig stream_ close_ data_ h ops)) = close_ /\
  data (self (session env sig stream_ close_ data_ h ops)) = data_.
Proof.
  apply (around_session env handles_kept handles_kept_refl handles_kept_trans).
  - intros s e _. repeat split.
  - intros s v. repeat split.
  - intros s t. repeat split.
  - intros s f. repeat split.
  - apply handles_kept_Close.
  - apply handles_kept_conn.
  - apply handles_kept_Close_on_nil.
Qed.

Lemma handlers_stream_kept (ops : list Op) (s : State) :
  forallb is_handler ops = true -> stream_kept s (execs env ops s).
Proof.
  apply around_handlers.
  - reflexivity.
  - apply stream_kept_trans.
  - reflexivity.
  - reflexivity.
  - intros reason s0. unfold stream_kept. now rewrite Close_self.
  - intros st s0. now rewrite onConnectionStateChange_state.
Qed.

Lemma handlers_quiet (ops : list Op) (s : State) :
  forallb is_handler ops = true -> quiet s (execs env ops s).
Proof.
  revert s. induction ops as [|o ops IH]; intros s H; cbn [execs].
  - apply quiet_refl.
  - cbn in H. apply andb_true_iff in H as [Ho Hops].
    eapply quiet_trans; [|now apply IH].
    apply exec_quiet. intros ->. discriminate.
Qed.

(** X6: only the forwarding loop touches the feed and the track.  No
    handler, callback or method other than [run], in any number and
    order, takes a packet from the inbound channel or writes to the
    track. *)
Theorem handlers_leave_feed_alone (ops : list Op) (s : State) :
  forallb is_handler ops = true ->
  stream (self (execs env ops s)) = stream (self s) /\
  existsb is_write (emitted s (execs env ops s)) = false.
Proof.
  intros H. split; [exact (handlers_stream_kept ops s H)|].
  destruct (handlers_quiet ops s H) as (new & E & Q).
  now rewrite (emitted_app _ _ _ E), existsb_rev.
Qed.

End Handles.

(** X6 at a fresh session that gets an answer, a candidate, "connected"
    and a [Close]. *)
Lemma handlers_leave_feed_alone_witness :
  stream (self (execs Fake.env
                  [Op_onSignalAnswer (Fake.quoted "v=0 a"); Op_onSignalCandidate "{c}";
                   Op_onConnectionStateChange PeerConnectionStateConnected; Op_Close "bye"]
                  Fake.fresh)) = Fake.feed0.
Proof.
  exact (proj1 (handlers_leave_feed_alone Fake.env
                  [Op_onSignalAnswer (Fake.quoted "v=0 a"); Op_onSignalCandidate "{c}";
                   Op_onConnectionStateChange PeerConnectionStateConnected; Op_Close "bye"]
                  Fake.fresh eq_refl)).
Defined.

(** ** The remaining handlers and the handshake *)

Section Handlers.

Variable env : Env.

Ltac close_cases s1 :=
  let H := fresh "Hc" in
  destruct (is_closed s1) eqn:H;
  [ rewrite (Close_closed env s1) by exact H | rewrite (Close_open env s1) by exact H ].

(** Closes a branch that ends in [Close] from the state [s1]. *)
Ltac ends_in_Close s :=
  cbn [fst snd self heap trace];
  match goal with |- context [Close env _ ?s1] =>
    let Hs := fresh "Hs" in
    assert (Hs : is_closed s1 = is_closed s) by reflexivity;
    split; [apply Close_returns|];
    repeat (split; [|apply Close_is_closed || (rewrite Close_self; reflexivity)]);
    try rewrite <- Hs; close_cases s1; reckon; reflexivity
  end.

(** X7: a [candidate] event from the peer.  A payload that does not parse
    is logged, answered with [reject] "invalid candidate", and closes the
    session with "failed to parse candidate"; a candidate the engine
    refuses is logged and closes the session with "failed to add
    candidate", and no [reject] is sent; a candidate the engine takes
    leaves the session as it was. *)
Theorem onSignalCandidate_outcomes (s : State) (msg : RawMessage) :
  fst (onSignalCandidate env msg s) = Ret tt /\
  match json_Unmarshal_candidate env msg with
  | inr err =>
      emitted s (snd (onSignalCandidate env msg s)) =
        Log ("RemotePeer: onCandidate: Unmarshal: " ++ err)%string
        :: SendMessage "reject" (PString "invalid candidate")
        :: Call_Close "failed to parse candidate"
        :: (if is_closed s then [] else teardown s "failed to parse candidate") /\
      is_closed (snd (onSignalCandidate env msg s)) = true
  | inl candidate =>
      match pc_AddICECandidate env (trace s) candidate with
      | Some err =>
          emitted s (snd (onSignalCandidate env msg s)) =
            AddICECandidate (peer (self s)) candidate
            :: Log ("RemotePeer: onCandidate: AddICECandidate: " ++ err)%string
            :: Call_Close "failed to add candidate"
            :: (if is_closed s then [] else teardown s "failed to add candidate") /\
          is_closed (snd (onSignalCandidate env msg s)) = true
      | None =>
          emitted s (snd (onSignalCandidate env msg s)) =
            [AddICECandidate (peer (self s)) candidate] /\
          self (snd (onSignalCandidate env msg s)) = self s /\
          heap (snd (onSignalCandidate env msg s)) = heap s
      end
  end.
Proof.
  unfold onSignalCandidate.
  destruct (json_Unmarshal_candidate env msg) as [candidate|err].
  - unfold bind, addICECandidate. cbn [fst snd].
    destruct (pc_AddICECandidate env (trace s) candidate) as [err|].
    + unfold emit. ends_in_Close s.
    + cbn. split; [reflexivity|]. split; [|split; reflexivity]. reckon. reflexivity.
  - unfold bind, emit, sendMessage. ends_in_Close s.
Qed.

(** X8: a candidate found by the engine.  The nil candidate that ends
    gathering is dropped: nothing is sent and nothing changes.  Any other
    is sent to the peer as a [candidate] event in its JSON form; if the
    send fails the session is closed with "failed to send candidate",
    and if it succeeds nothing else happens. *)
Theorem onICECandidate_outcomes (s : State) (candidate : option ICECandidate) :
  fst (onICECandidate env candidate s) = Ret tt /\
  match candidate with
  | None => snd (onICECandidate env candidate s) = s
  | Some c =>
      match signal_SendMessage env (trace s) "candidate" (PCandidate (candidate_ToJSON env c)) with
      | Some _ =>
          emitted s (snd (onICECandidate env candidate s)) =
            SendMessage "candidate" (PCandidate (candidate_ToJSON env c))
            :: Call_Close "failed to send candidate"
            :: (if is_closed s then [] else teardown s "failed to send candidate") /\
          is_closed (snd (onICECandidate env candidate s)) = true
      | None =>
          emitted s (snd (onICECandidate env candidate s)) =
            [SendMessage "candidate" (PCandidate (candidate_ToJSON env c))] /\
          self (snd (onICECandidate env candidate s)) = self s /\
          heap (snd (onICECandidate env candidate s)) = heap s
      end
  end.
Proof.
  destruct candidate as [c|]; [|split; reflexivity].
  unfold onICECandidate, bind, sendMessage. cbn [fst snd].
  destruct (signal_SendMessage env (trace s) _ _) as [err|].
  - ends_in_Close s.
  - cbn. split; [reflexivity|]. split; [|split; reflexivity]. reckon. reflexivity.
Qed.

(** X9: the handshake.  [Listen] is started and an offer requested in
    every case.  The [offer] event, carrying the SDP of the offer the
    engine created, is sent only after the engine made the offer and took
    it as local description.  A failure to create the offer, to apply it
    or to send it is logged and closes the session with "failed to create
    offer", "failed to add offer" or "failed to send offer"; when all
    three succeed the session is left as it was. *)
Theorem beginHandshake_outcomes (s : State) :
  fst (beginHandshake env s) = Ret tt /\
  match pc_CreateOffer env (GoListen :: trace s) with
  | inr err =>
      emitted s (snd (beginHandshake env s)) =
        GoListen :: CreateOffer (peer (self s))
        :: Log ("RemotePeer: beginHandshake: CreateOffer: " ++ err)%string
        :: Call_Close "failed to create offer"
        :: (if is_closed s then [] else teardown s "failed to create offer") /\
      is_closed (snd (beginHandshake env s)) = true
  | inl offer =>
      match pc_SetLocalDescription env (CreateOffer (peer (self s)) :: GoListen :: trace s)
                                   offer with
      | Some err =>
          emitted s (snd (beginHandshake env s)) =
            GoListen :: CreateOffer (peer (self s))
            :: SetLocalDescription (peer (self s)) offer
            :: Log ("RemotePeer: beginHandshake: SetLocalDescription: " ++ err)%string
            :: Call_Close "failed to add offer"
            :: (if is_closed s then [] else teardown s "failed to add offer") /\
          is_closed (snd (beginHandshake env s)) = true
      | None =>
          match signal_SendMessage env
                  (SetLocalDescription (peer (self s)) offer
                   :: CreateOffer (peer (self s)) :: GoListen :: trace s)
                  "offer" (PString (SDP offer)) with
          | Some err =>
              emitted s (snd (beginHandshake env s)) =
                GoListen :: CreateOffer (peer (self s))
                :: SetLocalDescription (peer (self s)) offer
                :: SendMessage "offer" (PString (SDP offer))
                :: Log ("RemotePeer: beginHandshake: SendMessage: " ++ err)%string
                :: Call_Close "failed to send offer"
                :: (if is_closed s then [] else teardown s "failed to send offer") /\
              is_closed (snd (beginHandshake env s)) = true
          | None =>
              emitted s (snd (beginHandshake env s)) =
                [ GoListen; CreateOffer (peer (self s));
                  SetLocalDescription (peer (self s)) offer;
                  SendMessage "offer" (PString (SDP offer)) ] /\
              self (snd (beginHandshake env s)) = self s /\
              heap (snd (beginHandshake env s)) = heap s
          end
      end
  end.
Proof.
  unfold beginHandshake, bind, emit, createOffer. cbn [fst snd self heap trace].
  destruct (pc_CreateOffer env (GoListen :: trace s)) as [offer|err].
  - unfold setLocalDescription. cbn [fst snd self heap trace].
    destruct (pc_SetLocalDescription env _ offer) as [err|].
    + ends_in_Close s.
    + unfold sendMessage. cbn [fst snd self heap trace].
      destruct (signal_SendMessage env _ _ _) as [err|].
      * ends_in_Close s.
      * cbn. split; [reflexivity|]. split; [|split; reflexivity]. reckon. reflexivity.
  - ends_in_Close s.
Qed.

(** X10: the track.  If it cannot be created the session is closed with
    "failed to create track" and the [track] field is left as it was.
    Once created it is stored in the field before it is attached, so it
    stays there when attaching fails and the session is closed with
    "failed to add track".  The reader that drains the sender is started,
    with a buffer of [mtu] bytes, only when attaching succeeded. *)
Theorem addTrack_outcomes (s : State) :
  fst (addTrack env s) = Ret tt /\
  let d := heap s (data (self s)) in
  let created := NewTrackLocalStaticRTP MimeTypeH264 (trackID d) (streamID d) in
  match webrtc_NewTrackLocalStaticRTP env (trace s) MimeTypeH264 (trackID d) (streamID d) with
  | inr err =>
      emitted s (snd (addTrack env s)) =
        created
        :: Log ("RemotePeer: addTrack: NewTrackLocalStaticRTP: " ++ err)%string
        :: Call_Close "failed to create track"
        :: (if is_closed s then [] else teardown s "failed to create track") /\
      is_closed (snd (addTrack env s)) = true /\
      track (self (snd (addTrack env s))) = track (self s)
  | inl t =>
      match pc_AddTrack env (created :: trace s) t with
      | inr err =>
          emitted s (snd (addTrack env s)) =
            created :: AddTrack (peer (self s)) t
            :: Log ("RemotePeer: addTrack: AddTrack: " ++ err)%string
            :: Call_Close "failed to add track"
            :: (if is_closed s then [] else teardown s "failed to add track") /\
          is_closed (snd (addTrack env s)) = true /\
          track (self (snd (addTrack env s))) = Some t
      | inl rtpSender =>
          emitted s (snd (addTrack env s)) =
            [created; AddTrack (peer (self s)) t; GoDrain rtpSender (mtu d)] /\
          heap (snd (addTrack env s)) = heap s /\
          track (self (snd (addTrack env s))) = Some t
      end
  end.
Proof.
  cbv zeta. unfold addTrack, bind, load, newTrackLocalStaticRTP.
  cbn [fst snd self heap trace].
  destruct (webrtc_NewTrackLocalStaticRTP env (trace s) _ _ _) as [t|err].
  - unfold set_track, pcAddTrack. cbn [fst snd self heap trace peer data].
    destruct (pc_AddTrack env _ t) as [rtpSender|err].
    + cbn. split; [reflexivity|]. split; [|split; reflexivity]. reckon. reflexivity.
    + unfold emit. cbn [fst snd self heap trace].
      set (s1 := mkState _ _ _).
      assert (Hs : is_closed s1 = is_closed s) by reflexivity.
      split; [apply Close_returns|].
      split; [|split; [apply Close_is_closed | now rewrite Close_self]].
      rewrite <- Hs. close_cases s1; reckon; reflexivity.
  - unfold emit. cbn [fst snd self heap trace].
    set (s1 := mkState _ _ _).
    assert (Hs : is_closed s1 = is_closed s) by reflexivity.
    split; [apply Close_returns|].
    split; [|split; [apply Close_is_closed | now rewrite Close_self]].
    rewrite <- Hs. close_cases s1; reckon; reflexivity.
Qed.

End Handlers.

(** ** The constructor *)

Section Construction.

Variable env : Env.

Lemma addTrack_returns (s : State) : fst (addTrack env s) = Ret tt.
Proof.
  unfold addTrack, bind, load, newTrackLocalStaticRTP. cbn [fst snd self heap trace].
  destruct (webrtc_NewTrackLocalStaticRTP env _ _ _ _) as [t|err].
  - unfold set_track, pcAddTrack. cbn [fst snd self heap trace].
    destruct (pc_AddTrack env _ t); [reflexivity | apply Close_returns].
  - apply Close_returns.
Qed.

(** The handshake always starts [Listen] and asks for an offer, comes
    back, keeps the session object, and leaves a closed session closed. *)
Lemma beginHandshake_shape (s : State) :
  fst (beginHandshake env s) = Ret tt /\
  self (snd (beginHandshake env s)) = self s /\
  (is_closed s = true -> is_closed (snd (beginHandshake env s)) = true) /\
  exists rest,
    trace (snd (beginHandshake env s)) = rest ++ CreateOffer (peer (self s)) :: GoListen :: trace s.
Proof.
  unfold beginHandshake, bind, emit, createOffer. cbn [fst snd self heap trace].
  destruct (pc_CreateOffer env (GoListen :: trace s)) as [offer|err].
  - unfold setLocalDescription. cbn [fst snd self heap trace].
    destruct (pc_SetLocalDescription env _ offer) as [err|].
    + set (s1 := mkState _ _ _).
      split; [apply Close_returns|]. split; [now rewrite Close_self|].
      split; [intros _; apply Close_is_closed|].
      rewrite Close_trace. eexists (_ ++ [_; _]). unfold s1. cbn [trace].
      rewrite <- app_assoc. reflexivity.
    + unfold sendMessage. cbn [fst snd self heap trace].
      destruct (signal_SendMessage env _ _ _) as [err|].
      * set (s1 := mkState _ _ _).
        split; [apply Close_returns|]. split; [now rewrite Close_self|].
        split; [intros _; apply Close_is_closed|].
        rewrite Close_trace. eexists (_ ++ [_; _; _]). unfold s1. cbn [trace].
        rewrite <- app_assoc. reflexivity.
      * cbn. repeat split; try tauto.
        now exists [SendMessage "offer" (PString (SDP offer));
                    SetLocalDescription (peer (self s)) offer].
  - set (s1 := mkState _ _ _).
    split; [apply Close_returns|]. split; [now rewrite Close_self|].
    split; [intros _; apply Close_is_closed|].
    rewrite Close_trace. eexists (_ ++ [_]). unfold s1. cbn [trace].
    rewrite <- app_assoc. reflexivity.
Qed.

Lemma bind_returned {B} (m : M unit) (k : unit -> M B) (s : State) :
  fst (m s) = Ret tt -> bind m k s = k tt (snd (m s)).
Proof. unfold bind. destruct (m s) as [[[]| | |] s']; cbn; congruence. Qed.

Lemma addTrack_failed (s : State) (err : error) :
  webrtc_NewTrackLocalStaticRTP env (trace s) MimeTypeH264
    (trackID (heap s (data (self s)))) (streamID (heap s (data (self s)))) = inr err ->
  addTrack env s =
    Close env "failed to create track"
      (mkState (self s) (heap s)
         (Log ("RemotePeer: addTrack: NewTrackLocalStaticRTP: " ++ err)%string
          :: NewTrackLocalStaticRTP MimeTypeH264 (trackID (heap s (data (self s))))
               (streamID (heap s (data (self s))))
          :: trace s)).
Proof.
  intros H. unfold addTrack, bind, load, newTrackLocalStaticRTP.
  cbn [fst snd self heap trace]. now rewrite H.
Qed.

(** The constructor after a connection was created: the registrations,
    then the track, then the handshake. *)
Lemma newRemotePeer_connected (sig : SignalHandle) (stream_ : Feed) (close_ : Chan)
    (data_ : loc) (h : loc -> PeerData) (pc : PeerConnection) :
  api_NewPeerConnection env (api (h data_)) (config (h data_)) = inl pc ->
  newRemotePeer env sig stream_ close_ data_ h =
    (addTrack env;; beginHandshake env;; ret None)
      (mkState (mkRemotePeer sig (Some pc) None stream_ close_ data_) h
         (rev registration
          ++ [NewPeerConnection (api (h data_)) (config (h data_)); Log "New Peer"])).
Proof. intros E. unfold newRemotePeer. cbv zeta. now rewrite E. Qed.

(** What the [Close] of the error branch does, in full. *)
Lemma Close_on_nil_run (s : State) (reason : string) :
  Close_on_nil env reason s =
    if is_closed s
    then (Ret tt, mkState (self s) (heap s) (Call_Close reason :: trace s))
    else (Panic,
          mkState (self s) (heap s)
            (PeerClose None :: SignalClose :: SendMessage "close" (PString reason)
             :: Log ("Closing peer connection, reason: " ++ reason)%string
             :: Call_Close reason :: trace s)).
Proof.
  unfold Close_on_nil, bind, emit, load, sendMessage, panic, ret, is_closed.
  cbn [fst snd self heap trace]. now destruct (closed (heap s (data (self s)))).
Qed.

(** [Close_on_nil] is [Close] on a session without a connection, cut at
    the release: a closed session gets the same no-op, and an open one
    the same events up to [peer.peer.Close()], after which [Close] would
    push the id and set [closed]. *)
Lemma Close_on_nil_is_Close_cut (s : State) (reason : string) :
  peer (self s) = None ->
  if is_closed s
  then Close_on_nil env reason s = Close env reason s
  else trace (snd (Close env reason s)) =
         Store (data (self s)) F_closed true
         :: ChanSend (close (self s)) (id (heap s (data (self s))))
         :: trace (snd (Close_on_nil env reason s)).
Proof.
  intros Hp. rewrite Close_on_nil_run. destruct (is_closed s) eqn:H.
  - now rewrite Close_closed.
  - rewrite Close_open by exact H. cbn. now rewrite Hp.
Qed.

(** X11: what the constructor returns.  Whenever the engine created the
    connection it returns the session and no error: a track or a
    handshake that fails is not reported.  When the engine gave no
    connection it returns the engine's error only if the [PeerData] it
    was given is closed already; otherwise the [Close] it calls panics on
    the nil connection and the constructor does not return. *)
Theorem newRemotePeer_error (sig : SignalHandle) (stream_ : Feed) (close_ : Chan)
    (data_ : loc) (h : loc -> PeerData) :
  fst (newRemotePeer env sig stream_ close_ data_ h) =
    match api_NewPeerConnection env (api (h data_)) (config (h data_)) with
    | inl _ => Ret None
    | inr err => if closed (h data_) then Ret (Some err) else Panic
    end.
Proof.
  unfold newRemotePeer. cbv zeta.
  destruct (api_NewPeerConnection env _ _) as [pc|err].
  - unfold bind at 1 2 3 4 5 6 7, emit. cbn [fst snd self heap trace].
    unfold bind at 1. match goal with |- context [addTrack env ?s0] =>
      pose proof (addTrack_returns s0) as Ha; destruct (addTrack env s0) as [[[]| | |] sA] end;
      cbn [fst] in Ha; try discriminate.
    unfold bind. destruct (beginHandshake_shape sA) as (Hb & _).
    destruct (beginHandshake env sA) as [[[]| | |] sB]; cbn [fst] in Hb; try discriminate.
    reflexivity.
  - unfold bind. rewrite Close_on_nil_run. unfold is_closed. cbn [self heap data].
    now destruct (closed (h data_)).
Qed.

(** X12: when the engine cannot create the connection, the constructor
    registers no handler, creates no track and sends no offer.  It logs,
    asks for the connection, and calls [Close] with "failed to create
    peer connection".  If the [PeerData] it was given is closed already
    that call does nothing.  Otherwise the peer is sent [close], the
    signal channel is closed, and the release is called on the nil
    connection, where it panics: the id is never pushed on the
    deregistration channel and no [PeerData] is written, so [closed]
    stays false. *)
Theorem newRemotePeer_failed_connection (sig : SignalHandle) (stream_ : Feed) (close_ : Chan)
    (data_ : loc) (h : loc -> PeerData) (err : error) :
  api_NewPeerConnection env (api (h data_)) (config (h data_)) = inr err ->
  rev (trace (snd (newRemotePeer env sig stream_ close_ data_ h))) =
    Log "New Peer"
    :: NewPeerConnection (api (h data_)) (config (h data_))
    :: Call_Close "failed to create peer connection"
    :: (if closed (h data_) then []
        else [ Log "Closing peer connection, reason: failed to create peer connection";
               SendMessage "close" (PString "failed to create peer connection");
               SignalClose;
               PeerClose None ]) /\
  heap (snd (newRemotePeer env sig stream_ close_ data_ h)) = h.
Proof.
  intros E. unfold newRemotePeer. cbv zeta. rewrite E. unfold bind.
  rewrite Close_on_nil_run. unfold is_closed. cbn [self heap data].
  now destruct (closed (h data_)).
Qed.

(** X13: when the connection is created but the track is not, the
    constructor still returns the session and no error.  The session is
    closed and has no track, and the handshake is started all the same:
    after the teardown [Listen] is started and the closed connection is
    asked for an offer. *)
Theorem newRemotePeer_failed_track (sig : SignalHandle) (stream_ : Feed) (close_ : Chan)
    (data_ : loc) (h : loc -> PeerData) (pc : PeerConnection) (err : error) :
  api_NewPeerConnection env (api (h data_)) (config (h data_)) = inl pc ->
  webrtc_NewTrackLocalStaticRTP env
    (rev registration ++ trace (born env sig stream_ close_ data_ h))
    MimeTypeH264 (trackID (h data_)) (streamID (h data_)) = inr err ->
  fst (newRemotePeer env sig stream_ close_ data_ h) = Ret None /\
  is_closed (snd (newRemotePeer env sig stream_ close_ data_ h)) = true /\
  track (self (snd (newRemotePeer env sig stream_ close_ data_ h))) = None /\
  exists rest,
    rev (trace (snd (newRemotePeer env sig stream_ close_ data_ h))) =
      (Log "New Peer" :: NewPeerConnection (api (h data_)) (config (h data_)) :: registration)
      ++ NewTrackLocalStaticRTP MimeTypeH264 (trackID (h data_)) (streamID (h data_))
         :: Log ("RemotePeer: addTrack: NewTrackLocalStaticRTP: " ++ err)%string
         :: Call_Close "failed to create track"
         :: (if closed (h data_) then []
             else [ Log "Closing peer connection, reason: failed to create track";
                    SendMessage "close" (PString "failed to create track");
                    SignalClose;
                    PeerClose (Some pc);
                    ChanSend close_ (id (h data_));
                    Store data_ F_closed true ])
      ++ GoListen :: CreateOffer (Some pc) :: rest.
Proof.
  intros Epc Etr.
  revert Etr. unfold born. rewrite Epc. cbn [trace]. intros Etr.
  rewrite (newRemotePeer_connected _ _ _ _ _ pc Epc).
  set (s7 := mkState _ h _) in *.
  rewrite (bind_returned _ _ s7 (addTrack_returns s7)).
  rewrite (addTrack_failed s7 err Etr).
  set (s8 := mkState (self s7) _ _).
  pose proof (Close_trace env s8 "failed to create track") as Ht.
  pose proof (Close_self env s8 "failed to create track") as Hself.
  pose proof (Close_is_closed env s8 "failed to create track") as Hcl.
  assert (Hd : is_closed s8 = closed (h data_)) by reflexivity.
  set (sA := snd (Close env "failed to create track" s8)) in *. clearbody sA.
  destruct (beginHandshake_shape sA) as (Hb & Hbs & Hbc & rest & Hbt).
  rewrite (bind_returned _ _ sA Hb).
  set (sB := snd (beginHandshake env sA)) in *. clearbody sB.
  cbn [ret fst snd]. split; [reflexivity|].
  split; [now apply Hbc|]. split; [now rewrite Hbs, Hself|].
  exists (rev rest). rewrite Hbt, Ht, Hd, Hself. unfold s8, s7. cbn [self peer trace].
  rewrite rev_app_distr.
  destruct (closed (h data_));
    cbn [rev app teardown self heap trace peer close data registration]; reflexivity.
Qed.

End Construction.

(** X12 at libraries that cannot create a connection: the release is
    called, on nil, and nothing is sent on the deregistration channel. *)
Lemma newRemotePeer_failed_connection_witness :
  existsb is_release
    (rev (trace (snd (newRemotePeer Fake.env_no_connection 5 Fake.feed0 6 7 Fake.heap0))))
    = true /\
  existsb is_chan_send
    (rev (trace (snd (newRemotePeer Fake.env_no_connection 5 Fake.feed0 6 7 Fake.heap0))))
    = false.
Proof.
  rewrite (proj1 (newRemotePeer_failed_connection Fake.env_no_connection 5 Fake.feed0 6 7
                    Fake.heap0 "no ICE servers" eq_refl)).
  split; reflexivity.
Defined.

(** X13 at libraries that cannot create a track. *)
Lemma newRemotePeer_failed_track_witness :
  fst (newRemotePeer Fake.env_no_track 5 Fake.feed0 6 7 Fake.heap0) = Ret None /\
  is_closed (snd (newRemotePeer Fake.env_no_track 5 Fake.feed0 6 7 Fake.heap0)) = true.
Proof.
  pose proof (newRemotePeer_failed_track Fake.env_no_track 5 Fake.feed0 6 7 Fake.heap0 11
                "codec not supported" eq_refl eq_refl) as (H1 & H2 & _).
  split; assumption.
Defined.

End connection.
